(** * GTG: evolutionary guitar-tablature composer (src/GTG.py)

    A shallow embedding of the search engine of [GTG.py]: the fretboard
    model, the fitness function, the population operators and the
    generation loop, followed by the properties of the specification that
    are settled on it.

    - Python integers are [Z]; a gene [(s, f)] is a pair [Z * Z]; a
      chromosome is a [list] of genes.
    - A Python exception is the [Raise] outcome of [result].
    - The module-level pseudo-random generator is an explicit stream of
      raw draws threaded through every operator that calls [random].
    - The two floating-point expressions of the program
      ([random.random() < MUTATION_RATE] and [int(POPULATION_SIZE * 0.3)])
      are computed on IEEE-754 binary64 values ([SpecFloat]).
    - Of the visualization, the text of the tablature is modelled; the
      calls into music21 are not, and are taken to return. *)

From Stdlib Require Import ZArith List Bool Lia.
From Stdlib Require Import Floats.SpecFloat.
From Stdlib Require Import Sorting.Permutation Sorting.Sorted.
From Stdlib Require Strings.String Strings.Ascii DecimalString.
Import ListNotations.
Import String.StringSyntax Ascii.AsciiSyntax.
Delimit Scope string_scope with string.
Delimit Scope char_scope with char.
Local Open Scope Z_scope.

(* ================================================================= *)
(** ** Python runtime: exceptions, sequences, floats, [random] *)

Module Py.

Inductive exn : Set :=
| IndexError
| ValueError
| OverflowError.

Inductive result (A : Type) : Type :=
| Ok (a : A)
| Raise (e : exn).
Arguments Ok {A} a.
Arguments Raise {A} e.

Definition bindR {A B} (r : result A) (k : A -> result B) : result B :=
  match r with
  | Ok a => k a
  | Raise e => Raise e
  end.

(** The generator state: the raw outcomes of the calls to come. *)
Definition rng : Type := nat -> Z.

Definition advance (g : rng) : rng := fun n => g (S n).

(** A computation that may draw from the generator and may raise. *)
Definition M (A : Type) : Type := rng -> result (A * rng).

Definition ret {A} (a : A) : M A := fun g => Ok (a, g).

Definition bind {A B} (m : M A) (k : A -> M B) : M B :=
  fun g =>
    match m g with
    | Ok (a, g') => k a g'
    | Raise e => Raise e
    end.

Definition lift {A} (r : result A) : M A :=
  fun g =>
    match r with
    | Ok a => Ok (a, g)
    | Raise e => Raise e
    end.

(** [len(l)] *)
Definition len {A} (l : list A) : Z := Z.of_nat (length l).

(** [l[i]]: a negative index counts from the end; out of range raises. *)
Definition getitem {A} (l : list A) (i : Z) : result A :=
  let j := if i <? 0 then i + len l else i in
  if j <? 0 then Raise IndexError
  else match nth_error l (Z.to_nat j) with
       | Some a => Ok a
       | None => Raise IndexError
       end.

Fixpoint update {A} (l : list A) (n : nat) (a : A) : list A :=
  match l, n with
  | [], _ => []
  | _ :: t, O => a :: t
  | h :: t, S n' => h :: update t n' a
  end.

(** [l[i] = a] *)
Definition setitem {A} (l : list A) (i : Z) (a : A) : result (list A) :=
  let j := if i <? 0 then i + len l else i in
  if (j <? 0) || (len l <=? j) then Raise IndexError
  else Ok (update l (Z.to_nat j) a).

(** The bound [k] of a slice, clipped into [[0, len l]]. *)
Definition clip {A} (l : list A) (k : Z) : nat :=
  Z.to_nat (Z.min (len l) (if k <? 0 then Z.max 0 (k + len l) else k)).

(** [l[:k]] and [l[k:]] *)
Definition slice_to {A} (l : list A) (k : Z) : list A := firstn (clip l k) l.
Definition slice_from {A} (l : list A) (k : Z) : list A := skipn (clip l k) l.

(** [range(n)] *)
Definition range (n : Z) : list Z := map Z.of_nat (seq 0 (Z.to_nat n)).

(** [for x in l: acc = f(acc, x)], stopping at the first exception. *)
Fixpoint foldR {A B} (f : A -> B -> result A) (l : list B) (a : A) : result A :=
  match l with
  | [] => Ok a
  | x :: l' => bindR (f a x) (foldR f l')
  end.

Fixpoint foldM {A B} (f : A -> B -> M A) (l : list B) (a : A) : M A :=
  match l with
  | [] => ret a
  | x :: l' => bind (f a x) (foldM f l')
  end.

(** [[f(x) for x in l]] *)
Fixpoint mapR {A B} (f : A -> result B) (l : list A) : result (list B) :=
  match l with
  | [] => Ok []
  | x :: l' =>
      bindR (f x) (fun y => bindR (mapR f l') (fun ys => Ok (y :: ys)))
  end.

(** [[m() for _ in range(n)]] *)
Fixpoint replicateM {A} (n : nat) (m : M A) : M (list A) :=
  match n with
  | O => ret []
  | S n' => bind m (fun x => bind (replicateM n' m) (fun xs => ret (x :: xs)))
  end.

(** [max(l, key=key)]: the first element whose key is the greatest. *)
Definition max_by {A} (key : A -> result Z) (l : list A) : result A :=
  match l with
  | [] => Raise ValueError
  | x :: l' =>
      bindR (key x) (fun kx =>
      bindR (foldR (fun (best : A * Z) y =>
                      bindR (key y) (fun ky =>
                      Ok (if ky >? snd best then (y, ky) else best)))
                   l' (x, kx))
            (fun best => Ok (fst best)))
  end.

(** [l.sort(key=key, reverse=True)]: a stable sort, greatest key first;
    elements of equal key keep their order. *)
Fixpoint insert_desc {A} (key : A -> Z) (x : A) (l : list A) : list A :=
  match l with
  | [] => [x]
  | y :: l' => if key x <? key y then y :: insert_desc key x l' else x :: l
  end.

Definition sort_desc {A} (key : A -> Z) (l : list A) : list A :=
  fold_right (insert_desc key) [] l.

(** *** binary64 *)

Definition float : Set := spec_float.
Definition prec : Z := 53.
Definition emax : Z := 1024.

(** [float(n)] for an integer [n], correctly rounded. *)
Definition float_of_int (n : Z) : result float :=
  match binary_normalize prec emax n 0 false with
  | S754_infinity _ => Raise OverflowError
  | x => Ok x
  end.

(** [int(x)]: truncation toward zero. *)
Definition int_of_float (x : float) : result Z :=
  match x with
  | S754_zero _ => Ok 0
  | S754_infinity _ => Raise OverflowError
  | S754_nan => Raise ValueError
  | S754_finite s m e =>
      let a := if 0 <=? e then Zpos m * 2 ^ e else Zpos m / 2 ^ (- e) in
      Ok (if s then - a else a)
  end.

Definition fmul : float -> float -> float := SFmul prec emax.
Definition flt : float -> float -> bool := SFltb.

(** The literals [0.3] and [0.1]. *)
Definition lit_0_3 : float := S754_finite false 5404319552844595 (-54).
Definition lit_0_1 : float := S754_finite false 7205759403792794 (-56).

(** *** [random] *)

(** [random.randint(a, b)]: an integer of [[a, b]]; an empty range raises. *)
Definition randint (a b : Z) : M Z :=
  fun g =>
    if a <=? b then Ok (a + g O mod (b - a + 1), advance g)
    else Raise ValueError.

(** [random.random()]: [k / 2^53] for a 53-bit integer [k]. *)
Definition random : M float :=
  fun g => Ok (binary_normalize prec emax (g O mod 2 ^ 53) (-53) false, advance g).

(** [random.choice(l)] *)
Definition choice {A} (l : list A) : M A :=
  fun g =>
    match l with
    | [] => Raise IndexError
    | _ :: _ => bind (lift (getitem l (g O mod len l))) ret (advance g)
    end.

End Py.

Import Py.

Declare Scope py_scope.
Delimit Scope py_scope with py.
Notation "'try' x <- e ; k" := (bindR e (fun x => k))
  (at level 10, x pattern, e at level 100, k at level 200) : py_scope.
Notation "'run' x <- e ; k" := (bind e (fun x => k))
  (at level 10, x pattern, e at level 100, k at level 200) : py_scope.
Local Open Scope py_scope.

(* ================================================================= *)
(** ** 1. Configuration *)

Definition gene : Set := (Z * Z)%type.
(** A chromosome: a complete melody, a list of genes. *)
Definition melody : Set := list gene.

Record config : Type := {
  TUNING : list Z;
  NUM_STRINGS : Z;
  MAX_FRET : Z;
  MELODY_LENGTH : Z;
  POPULATION_SIZE : Z;
  MUTATION_RATE : float;
  NUM_GENERATIONS : Z;
  SCALE_C_MAJOR : list Z
}.

(** The constants of [GTG.py]. *)
Definition GTG : config := {|
  TUNING := [40; 45; 50; 55; 59; 64];
  NUM_STRINGS := 6;
  MAX_FRET := 15;
  MELODY_LENGTH := 30;
  POPULATION_SIZE := 100;
  MUTATION_RATE := lit_0_1;
  NUM_GENERATIONS := 200;
  SCALE_C_MAJOR := [0; 2; 4; 5; 7; 9; 11]
|}.

Section Program.

Variable cfg : config.

(* ================================================================= *)
(** ** 2. Generation *)

Definition generate_random_gene : M gene :=
  run s <- randint 0 (NUM_STRINGS cfg - 1);
  run f <- randint 0 (MAX_FRET cfg);
  ret (s, f).

Definition generate_individual : M melody :=
  replicateM (Z.to_nat (MELODY_LENGTH cfg)) generate_random_gene.

(* ================================================================= *)
(** ** 3. Fitness function *)

Definition get_note_midi (string_idx fret : Z) : result Z :=
  try open <- getitem (TUNING cfg) string_idx;
  Ok (open + fret).

(** [get_note_midi(s, f)] for a gene [(s, f)]. *)
Definition midi_of (g : gene) : result Z := get_note_midi (fst g) (snd g).

(** [x in l] on integers. *)
Definition mem (x : Z) (l : list Z) : bool := existsb (Z.eqb x) l.

(** Criterion 1 of the loop body: the harmony of one note. *)
Definition harmony (chroma : Z) : Z :=
  if mem chroma (SCALE_C_MAJOR cfg) then
    10 + (if (chroma =? 0) || (chroma =? 7) then 5 else 0)
  else -50.

(** Criterion 2: the amount subtracted for the hand's jump from the
    previous gene. *)
Definition technique (prev cur : gene) : Z :=
  let '(prev_string, prev_fret) := prev in
  let '(string_idx, fret) := cur in
  let fret_dist := Z.abs (fret - prev_fret) in
  let string_dist := Z.abs (string_idx - prev_string) in
  fret_dist * 2 + string_dist * 5.

(** Criterion 3: the amount subtracted for the interval from the
    previous note. *)
Definition contour (prev_midi current_midi : Z) : Z :=
  let interval := Z.abs (current_midi - prev_midi) in
  if interval >? 12 then 20
  else if interval =? 0 then 5
  else 0.

(** One iteration of [for i in range(len(chromosome))]. *)
Definition score_step (chromosome : melody) (midi_notes : list Z)
    (score i : Z) : result Z :=
  try current_midi <- getitem midi_notes i;
  try cur <- getitem chromosome i;
  let chroma := current_midi mod 12 in
  let score := score + harmony chroma in
  if i >? 0 then
    try prev <- getitem chromosome (i - 1);
    try prev_midi <- getitem midi_notes (i - 1);
    let score := score - technique prev cur in
    Ok (score - contour prev_midi current_midi)
  else Ok score.

(** The final bonus for a melody that resolves to the tonic. *)
Definition resolution (last_note_chroma : Z) : Z :=
  if last_note_chroma =? 0 then 30 else 0.

Definition fitness_function (chromosome : melody) : result Z :=
  try midi_notes <- mapR midi_of chromosome;
  try score <- foldR (score_step chromosome midi_notes) (range (len chromosome)) 0;
  try last_midi <- getitem midi_notes (-1);
  Ok (score + resolution (last_midi mod 12)).

(* ================================================================= *)
(** ** 4. Genetic algorithm core *)

(** [p1[:split] + p2[split:]] *)
Definition recombine (p1 p2 : melody) (split : Z) : melody :=
  slice_to p1 split ++ slice_from p2 split.

Definition crossover (p1 p2 : melody) : M melody :=
  run split <- randint 1 (len p1 - 1);
  ret (recombine p1 p2 split).

(** [mutant = list(chromosome)] is a copy: the assignment below changes
    the copy only, so the argument, which may be a member of the current
    population, keeps its genes. *)
Definition mutate (chromosome : melody) : M melody :=
  let mutant := chromosome in
  run r <- random;
  if flt r (MUTATION_RATE cfg) then
    run idx <- randint 0 (len mutant - 1);
    run g <- generate_random_gene;
    lift (setitem mutant idx g)
  else ret mutant.

(** [int(POPULATION_SIZE * 0.3)] *)
Definition breeding_pool_size : result Z :=
  try n <- float_of_int (POPULATION_SIZE cfg);
  int_of_float (fmul n lit_0_3).

(** [[(ind, fitness_function(ind)) for ind in population]] *)
Definition evaluate (population : list melody) : result (list (melody * Z)) :=
  mapR (fun ind => try s <- fitness_function ind; Ok (ind, s)) population.

(** The body of [while len(new_pop) < POPULATION_SIZE]. *)
Definition breed (top_performers : list melody) : M melody :=
  run parent1 <- choice top_performers;
  run parent2 <- choice top_performers;
  run child <- crossover parent1 parent2;
  mutate child.

(** The [while] loop: every iteration appends one child, so it runs
    [POPULATION_SIZE - len(new_pop)] times, or not at all. *)
Fixpoint fill (todo : nat) (top_performers new_pop : list melody)
    : M (list melody) :=
  match todo with
  | O => ret new_pop
  | S todo' =>
      run child <- breed top_performers;
      fill todo' top_performers (new_pop ++ [child])
  end.

(** The body of [for gen in range(NUM_GENERATIONS)].  The logging line
    prints nothing the search depends on, but it reads [scored_pop[0]]. *)
Definition generation (population : list melody) (gen : Z)
    : M (list melody) :=
  run scored_pop <- lift (evaluate population);
  let scored_pop := sort_desc snd scored_pop in
  run _ <- lift (if gen mod 50 =? 0
                 then try best <- getitem scored_pop 0; Ok (snd best)
                 else Ok 0);
  run k <- lift breeding_pool_size;
  let top_performers := map fst (slice_to scored_pop k) in
  run elite <- lift (getitem top_performers 0);
  let new_pop := [elite] in
  fill (Z.to_nat (POPULATION_SIZE cfg - len new_pop)) top_performers new_pop.

Definition initial_population : M (list melody) :=
  replicateM (Z.to_nat (POPULATION_SIZE cfg)) generate_individual.

(** The [for] loop run for its first [gens] iterations. *)
Definition evolve (gens : Z) (population : list melody) : M (list melody) :=
  foldM generation (range gens) population.

Definition genetic_algorithm : M melody :=
  run population <- initial_population;
  run population <- evolve (NUM_GENERATIONS cfg) population;
  lift (max_by fitness_function population).

(* ================================================================= *)
(** ** Vocabulary of the specification *)

(** The population the loop holds on entering iteration [g]. *)
Definition population_at (g : Z) : M (list melody) :=
  run population <- initial_population;
  evolve g population.

(** The greatest score of a population. *)
Definition best_score (population : list melody) : result Z :=
  try scores <- mapR fitness_function population;
  match scores with
  | [] => Raise ValueError
  | s :: ss => Ok (fold_left Z.max ss s)
  end.

(** A gene within the configured bounds. *)
Definition in_bounds (g : gene) : Prop :=
  0 <= fst g <= NUM_STRINGS cfg - 1 /\ 0 <= snd g <= MAX_FRET cfg.

(** A candidate of the configured length whose genes are within bounds. *)
Definition well_formed (c : melody) : Prop :=
  len c = MELODY_LENGTH cfg /\ Forall in_bounds c.

(** A population of the configured size, of well-formed candidates. *)
Definition population_ok (population : list melody) : Prop :=
  len population = POPULATION_SIZE cfg /\ Forall well_formed population.

(** A configuration on which the search runs. *)
Definition runnable : Prop :=
  2 <= MELODY_LENGTH cfg /\
  1 <= NUM_STRINGS cfg <= len (TUNING cfg) /\
  0 <= MAX_FRET cfg /\
  1 <= POPULATION_SIZE cfg /\
  exists k, breeding_pool_size = Ok k /\ 1 <= k.

End Program.

(** The number of positions at which two candidates differ. *)
Fixpoint differences (a b : melody) : nat :=
  match a, b with
  | x :: a', y :: b' =>
      let d := if (fst x =? fst y) && (snd x =? snd y) then O else S O in
      (d + differences a' b')%nat
  | _, _ => O
  end.

(** Two generators for the examples. *)
Definition zeros : rng := fun _ => 0.
Definition counting : rng := fun n => 7 * Z.of_nat n + 3.

(** The configuration of [GTG.py] with one-note melodies: six strings,
    fret ceiling 15, standard tuning, the C major pitch classes. *)
Definition one_note : config := {|
  TUNING := [40; 45; 50; 55; 59; 64];
  NUM_STRINGS := 6;
  MAX_FRET := 15;
  MELODY_LENGTH := 1;
  POPULATION_SIZE := 100;
  MUTATION_RATE := lit_0_1;
  NUM_GENERATIONS := 200;
  SCALE_C_MAJOR := [0; 2; 4; 5; 7; 9; 11]
|}.

(** The configuration of [GTG.py] with no pitch class in key. *)
Definition no_scale : config := {|
  TUNING := [40; 45; 50; 55; 59; 64];
  NUM_STRINGS := 6;
  MAX_FRET := 15;
  MELODY_LENGTH := 30;
  POPULATION_SIZE := 100;
  MUTATION_RATE := lit_0_1;
  NUM_GENERATIONS := 200;
  SCALE_C_MAJOR := []
|}.

(* ================================================================= *)
(** ** 5. Visualization: the text of the tablature

    Of [play_and_show], the [visual_lines] it builds and prints.  The
    music21 score, the random note durations and the playback take no
    part in the text and are left out: the model is the text the loop
    builds when those calls return. *)

(** [str(n)] of an integer. *)
Definition str (n : Z) : String.string :=
  DecimalString.NilZero.string_of_int (Z.to_int n).

Fixpoint padding (n : nat) (fillchar : Ascii.ascii) : String.string :=
  match n with
  | O => String.EmptyString
  | S n' => String.String fillchar (padding n' fillchar)
  end.

(** [s.ljust(width, fillchar)] *)
Definition ljust (width : nat) (fillchar : Ascii.ascii) (s : String.string)
    : String.string :=
  String.append s (padding (width - String.length s) fillchar).

(** What line [i] receives for a note on string [s_idx] at [fret]. *)
Definition tab_cell (i s_idx fret : Z) : String.string :=
  if 5 - i =? s_idx
  then ljust 4 "-"%char
         (String.append "-" (String.append (str fret) "-"))
  else "----"%string.

Section Visualization.

Variable cfg : config.

(** The body of [for s_idx, fret in chromosome]. *)
Definition tab_note (visual_lines : list String.string) (g : gene)
    : result (list String.string) :=
  let '(s_idx, fret) := g in
  try open <- getitem (TUNING cfg) s_idx;
  let midi_val := open + fret in
  foldR (fun lines i =>
           try line <- getitem lines i;
           setitem lines i (String.append line (tab_cell i s_idx fret)))
        (range 6) visual_lines.

(** The lines printed under the tablature heading. *)
Definition tablature (chromosome : melody) : result (list String.string) :=
  foldR tab_note chromosome
        ["e|"; "B|"; "G|"; "D|"; "A|"; "E|"]%string.

End Visualization.

(* ================================================================= *)
(** ** Further vocabulary *)

(** A gene moved [k] octaves along its string. *)
Definition transpose (k : Z) (g : gene) : gene := (fst g, snd g + 12 * k).

(** A gene whose string index the tuning table can be read at. *)
Definition readable (cfg : config) (g : gene) : Prop :=
  - len (TUNING cfg) <= fst g < len (TUNING cfg).

(** The configuration of [GTG.py] with a mutation rate of zero. *)
Definition never_mutating : config := {|
  TUNING := [40; 45; 50; 55; 59; 64];
  NUM_STRINGS := 6;
  MAX_FRET := 15;
  MELODY_LENGTH := 30;
  POPULATION_SIZE := 100;
  MUTATION_RATE := S754_zero false;
  NUM_GENERATIONS := 200;
  SCALE_C_MAJOR := [0; 2; 4; 5; 7; 9; 11]
|}.

(** The configuration of [GTG.py] with a population of three. *)
Definition trio : config := {|
  TUNING := [40; 45; 50; 55; 59; 64];
  NUM_STRINGS := 6;
  MAX_FRET := 15;
  MELODY_LENGTH := 30;
  POPULATION_SIZE := 3;
  MUTATION_RATE := lit_0_1;
  NUM_GENERATIONS := 200;
  SCALE_C_MAJOR := [0; 2; 4; 5; 7; 9; 11]
|}.

(** One-note melodies and no generation at all. *)
Definition no_generation : config := {|
  TUNING := [40; 45; 50; 55; 59; 64];
  NUM_STRINGS := 6;
  MAX_FRET := 15;
  MELODY_LENGTH := 1;
  POPULATION_SIZE := 100;
  MUTATION_RATE := lit_0_1;
  NUM_GENERATIONS := 0;
  SCALE_C_MAJOR := [0; 2; 4; 5; 7; 9; 11]
|}.

(** A guitar without strings. *)
Definition no_string : config := {|
  TUNING := [];
  NUM_STRINGS := 0;
  MAX_FRET := 15;
  MELODY_LENGTH := 30;
  POPULATION_SIZE := 100;
  MUTATION_RATE := lit_0_1;
  NUM_GENERATIONS := 200;
  SCALE_C_MAJOR := [0; 2; 4; 5; 7; 9; 11]
|}.

(* ================================================================= *)
(** ** Facts about the runtime *)

Section SequenceFacts.

Context {A : Type}.
Implicit Types (l : list A) (a : A).

Lemma len_nonneg l : 0 <= len l.
Proof. unfold len. lia. Qed.

Lemma len_app l1 l2 : len (l1 ++ l2) = len l1 + len l2.
Proof. unfold len. rewrite length_app. lia. Qed.

Lemma getitem_nat l n a :
  nth_error l n = Some a -> getitem l (Z.of_nat n) = Ok a.
Proof.
  intros H. unfold getitem.
  replace (Z.of_nat n <? 0) with false by (symmetry; apply Z.ltb_ge; lia).
  replace (Z.of_nat n <? 0) with false by (symmetry; apply Z.ltb_ge; lia).
  now rewrite Nat2Z.id, H.
Qed.

Lemma getitem_in_range l i :
  0 <= i < len l ->
  exists a, getitem l i = Ok a /\ nth_error l (Z.to_nat i) = Some a.
Proof.
  intros Hi. unfold len in Hi.
  destruct (nth_error l (Z.to_nat i)) as [a|] eqn:E.
  - exists a. split; [|reflexivity].
    rewrite <- (Z2Nat.id i) by lia. now apply getitem_nat.
  - apply nth_error_None in E. lia.
Qed.

Lemma getitem_In l i a : getitem l i = Ok a -> In a l.
Proof.
  unfold getitem.
  destruct ((if i <? 0 then i + len l else i) <? 0); [discriminate|].
  destruct (nth_error l _) as [b|] eqn:E; [|discriminate].
  intros [= <-]. eapply nth_error_In; eauto.
Qed.

Lemma getitem_nil i : getitem (@nil A) i = Raise IndexError.
Proof.
  unfold getitem.
  destruct ((if i <? 0 then i + len (@nil A) else i) <? 0); [reflexivity|].
  now destruct (Z.to_nat _).
Qed.

Lemma getitem_last l a : getitem (l ++ [a]) (-1) = Ok a.
Proof.
  unfold getitem. cbn [Z.ltb Z.compare].
  rewrite len_app. change (len [a]) with 1.
  pose proof (len_nonneg l) as Hl.
  replace (-1 + (len l + 1) <? 0) with false by (symmetry; apply Z.ltb_ge; lia).
  replace (Z.to_nat (-1 + (len l + 1))) with (length l) by (unfold len; lia).
  now rewrite nth_error_app2, Nat.sub_diag by lia.
Qed.

Lemma getitem_app1 l1 l2 i :
  0 <= i < len l1 -> getitem (l1 ++ l2) i = getitem l1 i.
Proof.
  intros Hi. destruct (getitem_in_range l1 i Hi) as (a & -> & Hn).
  rewrite <- (Z2Nat.id i) by lia. apply getitem_nat.
  rewrite nth_error_app1; [assumption|]. unfold len in Hi. lia.
Qed.

Lemma getitem_app2 l a : getitem (l ++ [a]) (len l) = Ok a.
Proof.
  unfold len. apply getitem_nat.
  now rewrite nth_error_app2, Nat.sub_diag by lia.
Qed.

Lemma length_update l n a : length (update l n a) = length l.
Proof.
  revert n. induction l as [|h t IH]; intros [|n]; cbn; auto.
Qed.

Lemma nth_error_update l n a j :
  nth_error (update l n a) j =
  if Nat.eqb j n then (if Nat.ltb n (length l) then Some a else None)
  else nth_error l j.
Proof.
  revert n j. induction l as [|h t IH]; intros n j.
  - cbn. destruct n, j; cbn; try reflexivity; now destruct (Nat.eqb j n).
  - destruct n as [|n], j as [|j]; cbn [update nth_error Nat.eqb]; try reflexivity.
    rewrite IH. cbn [length].
    change (Nat.ltb (S n) (S (length t))) with (Nat.ltb n (length t)).
    reflexivity.
Qed.

Lemma clip_in_range l k : 0 <= k <= len l -> clip l k = Z.to_nat k.
Proof.
  intros Hk. unfold clip.
  replace (k <? 0) with false by (symmetry; apply Z.ltb_ge; lia).
  f_equal. lia.
Qed.

Lemma slice_to_head l k a :
  1 <= k -> hd_error l = Some a -> hd_error (slice_to l k) = Some a.
Proof.
  intros Hk Hl. destruct l as [|b t]; [discriminate|]. cbn in Hl.
  injection Hl as ->. unfold slice_to, clip.
  replace (k <? 0) with false by (symmetry; apply Z.ltb_ge; lia).
  assert (1 <= len (a :: t)) by (unfold len; cbn [length]; lia).
  destruct (Z.to_nat (Z.min (len (a :: t)) k)) eqn:E; [lia|reflexivity].
Qed.

Lemma slice_to_incl l k a : In a (slice_to l k) -> In a l.
Proof.
  unfold slice_to. intros H.
  rewrite <- (firstn_skipn (clip l k) l). apply in_or_app. now left.
Qed.

Lemma slice_from_incl l k a : In a (slice_from l k) -> In a l.
Proof.
  unfold slice_from. intros H.
  rewrite <- (firstn_skipn (clip l k) l). apply in_or_app. now right.
Qed.

End SequenceFacts.

Section LoopFacts.

Context {A B : Type}.

Lemma In_range i n : In i (range n) <-> 0 <= i < n.
Proof.
  unfold range. rewrite in_map_iff. split.
  - intros (k & <- & Hk). apply in_seq in Hk. lia.
  - intros Hi. exists (Z.to_nat i). split; [lia|]. apply in_seq. lia.
Qed.

Lemma range_succ n : 0 <= n -> range (n + 1) = range n ++ [n].
Proof.
  intros Hn. unfold range.
  replace (Z.to_nat (n + 1)) with (S (Z.to_nat n)) by lia.
  rewrite seq_S, map_app. cbn. now rewrite Z2Nat.id by lia.
Qed.

Lemma range_split g n :
  0 <= g <= n -> exists rest, range n = range g ++ rest.
Proof.
  intros Hg. unfold range.
  replace (Z.to_nat n) with (Z.to_nat g + (Z.to_nat n - Z.to_nat g))%nat by lia.
  rewrite seq_app, map_app. eauto.
Qed.

Lemma foldR_app (f : A -> B -> result A) l1 l2 a :
  foldR f (l1 ++ l2) a = bindR (foldR f l1 a) (foldR f l2).
Proof.
  revert a. induction l1 as [|x l1 IH]; intros a; cbn; [reflexivity|].
  destruct (f a x); cbn; auto.
Qed.

Lemma foldR_ext (f g : A -> B -> result A) l a :
  (forall s x, In x l -> f s x = g s x) -> foldR f l a = foldR g l a.
Proof.
  revert a. induction l as [|x l IH]; intros a H; cbn; [reflexivity|].
  rewrite H by (now left). destruct (g a x); cbn; [|reflexivity].
  apply IH. intros s y Hy. apply H. now right.
Qed.

Lemma foldR_total (f : A -> B -> result A) l a :
  (forall s x, In x l -> exists s', f s x = Ok s') ->
  exists r, foldR f l a = Ok r.
Proof.
  revert a. induction l as [|x l IH]; intros a H; cbn; [eauto|].
  destruct (H a x) as (s' & ->); [now left|]. cbn.
  apply IH. intros s y Hy. apply H. now right.
Qed.

Lemma foldM_app (f : A -> B -> M A) l1 l2 a g :
  foldM f (l1 ++ l2) a g = bind (foldM f l1 a) (foldM f l2) g.
Proof.
  revert a g. induction l1 as [|x l1 IH]; intros a g; cbn; [reflexivity|].
  unfold bind. destruct (f a x g) as [[a' g']|e]; [|reflexivity].
  exact (IH a' g').
Qed.

Lemma mapR_Forall2 (f : A -> result B) l ys :
  mapR f l = Ok ys <-> Forall2 (fun x y => f x = Ok y) l ys.
Proof.
  revert ys. induction l as [|x l IH]; intros ys; cbn.
  - split; [intros [= <-]; constructor | intros H; now inversion H].
  - split.
    + destruct (f x) as [y|] eqn:Ex; cbn; [|discriminate].
      destruct (mapR f l) as [zs|]; cbn; [|discriminate].
      intros [= <-]. constructor; [assumption|]. now apply IH.
    + intros H. inversion H as [|? y ? zs Hx Hl]; subst.
      rewrite Hx. cbn. apply IH in Hl. now rewrite Hl.
Qed.

Lemma mapR_total (f : A -> result B) (P : A -> Prop) l :
  (forall x, P x -> exists y, f x = Ok y) ->
  Forall P l -> exists ys, mapR f l = Ok ys.
Proof.
  intros Hf. induction 1 as [|x l Hx _ (ys & IH)]; cbn; [eauto|].
  destruct (Hf x Hx) as (y & ->). cbn. rewrite IH. cbn. eauto.
Qed.

Lemma mapR_raise (f : A -> result B) l x e :
  In x l -> (forall y, In y l -> f y = Raise e) -> mapR f l = Raise e.
Proof.
  destruct l as [|y l]; [contradiction|]. intros _ H. cbn.
  now rewrite H by (now left).
Qed.

End LoopFacts.

(* ================================================================= *)
(** ** Facts about the fitness function *)

Section FitnessFacts.

Variable cfg : config.

Lemma get_note_midi_in_bounds g :
  NUM_STRINGS cfg <= len (TUNING cfg) ->
  in_bounds cfg g -> exists m, midi_of cfg g = Ok m.
Proof.
  intros Ht [Hs _]. unfold midi_of, get_note_midi.
  destruct (getitem_in_range (TUNING cfg) (fst g)) as (o & -> & _); [lia|].
  cbn. eauto.
Qed.

Lemma midi_notes_in_bounds c :
  NUM_STRINGS cfg <= len (TUNING cfg) ->
  Forall (in_bounds cfg) c -> exists ms, mapR (midi_of cfg) c = Ok ms.
Proof.
  intros Ht. apply mapR_total. intros g. now apply get_note_midi_in_bounds.
Qed.

Lemma score_step_total c ms s i :
  len ms = len c -> 0 <= i < len c ->
  exists s', score_step cfg c ms s i = Ok s'.
Proof.
  intros Hlen Hi. unfold score_step.
  destruct (getitem_in_range ms i) as (m & -> & _); [lia|].
  destruct (getitem_in_range c i) as (g & -> & _); [lia|]. cbn.
  destruct (i >? 0) eqn:E; [|eauto].
  apply Z.gtb_lt in E.
  destruct (getitem_in_range c (i - 1)) as (p & -> & _); [lia|].
  destruct (getitem_in_range ms (i - 1)) as (pm & -> & _); [lia|].
  cbn. eauto.
Qed.

(** The loop over a melody reads nothing beyond the notes it has reached. *)
Lemma score_loop_prefix c ms g m :
  len ms = len c ->
  foldR (score_step cfg (c ++ [g]) (ms ++ [m])) (range (len c)) 0 =
  foldR (score_step cfg c ms) (range (len c)) 0.
Proof.
  intros Hlen. apply foldR_ext. intros s i Hi. apply In_range in Hi.
  unfold score_step.
  rewrite !getitem_app1 by lia.
  destruct (i >? 0) eqn:E; [|reflexivity].
  apply Z.gtb_lt in E. now rewrite !getitem_app1 by lia.
Qed.

(** The score of a melody extended by one note: the loop over the
    shorter melody, the terms of the new note, and the final bonus. *)
Lemma fitness_snoc c ms q mq g m :
  mapR (midi_of cfg) c = Ok ms ->
  getitem c (len c - 1) = Ok q ->
  getitem ms (len c - 1) = Ok mq ->
  midi_of cfg g = Ok m ->
  fitness_function cfg (c ++ [g]) =
  try s <- foldR (score_step cfg c ms) (range (len c)) 0;
  Ok (s + harmony cfg (m mod 12) - technique q g - contour mq m
      + resolution (m mod 12)).
Proof.
  intros Hms Hq Hmq Hm.
  assert (Hlen : len ms = len c).
  { apply mapR_Forall2, Forall2_length in Hms. unfold len. lia. }
  assert (Hpos : 1 <= len c).
  { destruct c; [now rewrite getitem_nil in Hq|]. unfold len. cbn. lia. }
  assert (Hall : mapR (midi_of cfg) (c ++ [g]) = Ok (ms ++ [m])).
  { apply mapR_Forall2. apply Forall2_app; [now apply mapR_Forall2|].
    constructor; [assumption|constructor]. }
  unfold fitness_function. rewrite Hall. cbn [bindR].
  rewrite len_app. change (len [g]) with 1.
  rewrite range_succ by lia. rewrite foldR_app.
  rewrite score_loop_prefix by assumption.
  destruct (foldR (score_step cfg c ms) (range (len c)) 0) as [s|e];
    [|reflexivity].
  cbn [bindR foldR]. unfold score_step at 1.
  rewrite <- Hlen at 1. rewrite getitem_app2. cbn [bindR].
  rewrite getitem_app2. cbn [bindR].
  replace (len c >? 0) with true by (symmetry; apply Z.gtb_lt; lia).
  rewrite !getitem_app1 by lia. rewrite Hq, Hmq. cbn [bindR].
  rewrite getitem_last. cbn [bindR]. reflexivity.
Qed.

Lemma fitness_total c :
  NUM_STRINGS cfg <= len (TUNING cfg) ->
  c <> [] -> Forall (in_bounds cfg) c ->
  exists z, fitness_function cfg c = Ok z.
Proof.
  intros Ht Hne Hc.
  destruct (midi_notes_in_bounds c Ht Hc) as (ms & Hms).
  assert (Hlen : len ms = len c).
  { apply mapR_Forall2, Forall2_length in Hms. unfold len. lia. }
  unfold fitness_function. rewrite Hms. cbn [bindR].
  destruct (foldR_total (score_step cfg c ms) (range (len c)) 0) as (s & ->).
  { intros s i Hi. apply In_range in Hi. now apply score_step_total. }
  cbn [bindR].
  destruct (exists_last Hne) as (c' & g & ->).
  destruct ms as [|m0 ms0] using rev_ind.
  { rewrite len_app in Hlen. unfold len in Hlen. cbn in Hlen. lia. }
  rewrite getitem_last. cbn. eauto.
Qed.

Lemma fitness_single g m :
  midi_of cfg g = Ok m ->
  fitness_function cfg [g] = Ok (harmony cfg (m mod 12) + resolution (m mod 12)).
Proof.
  intros Hm. unfold fitness_function. cbn [mapR].
  rewrite Hm. cbn. reflexivity.
Qed.

Lemma fitness_nil : fitness_function cfg [] = Raise IndexError.
Proof. reflexivity. Qed.

End FitnessFacts.

(* ================================================================= *)
(** ** Facts about the random source and the operators *)

Lemma randint_in_range a b g :
  a <= b -> exists r, randint a b g = Ok (r, advance g) /\ a <= r <= b.
Proof.
  intros Hab. unfold randint.
  replace (a <=? b) with true by (symmetry; apply Z.leb_le; lia).
  eexists. split; [reflexivity|].
  pose proof (Z.mod_pos_bound (g O) (b - a + 1)). lia.
Qed.

Lemma randint_empty a b g : b < a -> randint a b g = Raise ValueError.
Proof.
  intros Hab. unfold randint.
  now replace (a <=? b) with false by (symmetry; apply Z.leb_gt; lia).
Qed.

(** Every outcome of the range is drawn by some generator. *)
Lemma randint_onto a b r :
  a <= r <= b -> randint a b (fun _ => r - a) = Ok (r, advance (fun _ => r - a)).
Proof.
  intros Hr. unfold randint.
  replace (a <=? b) with true by (symmetry; apply Z.leb_le; lia).
  rewrite Z.mod_small by lia. do 2 f_equal. lia.
Qed.

Lemma choice_In {A} (l : list A) g :
  l <> [] -> exists a, choice l g = Ok (a, advance g) /\ In a l.
Proof.
  intros Hne. destruct l as [|x l]; [contradiction|].
  unfold choice, bind, lift.
  destruct (getitem_in_range (x :: l) (g O mod len (x :: l))) as (a & Ha & Hn).
  { apply Z.mod_pos_bound. unfold len. cbn [length]. lia. }
  rewrite Ha. exists a. split; [reflexivity|].
  eapply nth_error_In; eauto.
Qed.

Lemma replicateM_spec {A} (P : A -> Prop) (m : M A) :
  (forall g, exists a g', m g = Ok (a, g') /\ P a) ->
  forall n g, exists l g',
    replicateM n m g = Ok (l, g') /\ length l = n /\ Forall P l.
Proof.
  intros Hm. induction n as [|n IH]; intros g; cbn.
  - exists [], g. repeat split. constructor.
  - unfold bind. destruct (Hm g) as (a & g1 & -> & Ha).
    destruct (IH g1) as (l & g2 & -> & Hlen & Hl).
    exists (a :: l), g2. cbn. repeat split; [congruence|now constructor].
Qed.

Lemma Forall_update {A} (P : A -> Prop) (l : list A) n a :
  Forall P l -> P a -> Forall P (update l n a).
Proof.
  intros Hl Ha. revert n.
  induction Hl as [|x l Hx Hl IH]; intros [|n]; cbn; constructor; auto.
Qed.

Lemma differences_refl c : differences c c = O.
Proof.
  induction c as [|x c IH]; cbn; [reflexivity|].
  now rewrite !Z.eqb_refl, IH.
Qed.

Lemma differences_update c n g : (differences c (update c n g) <= 1)%nat.
Proof.
  revert n. induction c as [|x c IH]; intros [|n]; cbn [update differences].
  - lia.
  - lia.
  - rewrite differences_refl.
    destruct ((fst x =? fst g) && (snd x =? snd g)); lia.
  - rewrite !Z.eqb_refl. cbn. apply IH.
Qed.

Section OperatorFacts.

Variable cfg : config.

Lemma generate_random_gene_in_bounds g :
  1 <= NUM_STRINGS cfg -> 0 <= MAX_FRET cfg ->
  exists p g', generate_random_gene cfg g = Ok (p, g') /\ in_bounds cfg p.
Proof.
  intros Hs Hf. unfold generate_random_gene, bind.
  destruct (randint_in_range 0 (NUM_STRINGS cfg - 1) g) as (s & -> & Hs'); [lia|].
  destruct (randint_in_range 0 (MAX_FRET cfg) (advance g)) as (f & -> & Hf');
    [lia|].
  exists (s, f). eexists. split; [reflexivity|]. split; assumption.
Qed.

Lemma generate_individual_well_formed g :
  1 <= NUM_STRINGS cfg -> 0 <= MAX_FRET cfg ->
  exists c g', generate_individual cfg g = Ok (c, g') /\
               length c = Z.to_nat (MELODY_LENGTH cfg) /\
               Forall (in_bounds cfg) c.
Proof.
  intros Hs Hf. unfold generate_individual.
  apply replicateM_spec. intros g0. now apply generate_random_gene_in_bounds.
Qed.

Lemma recombine_length (p1 p2 : melody) k :
  len p1 = len p2 -> 0 <= k <= len p1 -> len (recombine p1 p2 k) = len p1.
Proof.
  intros Hlen Hk. unfold recombine, slice_to, slice_from.
  rewrite !clip_in_range by lia.
  rewrite len_app. unfold len in *.
  rewrite length_firstn, length_skipn. lia.
Qed.

Lemma recombine_prefix (p1 p2 : melody) k :
  0 <= k <= len p1 ->
  firstn (Z.to_nat k) (recombine p1 p2 k) = firstn (Z.to_nat k) p1.
Proof.
  intros Hk. unfold recombine, slice_to.
  rewrite clip_in_range by lia.
  rewrite firstn_app, firstn_firstn, Nat.min_id.
  rewrite length_firstn.
  replace (Z.to_nat k - Nat.min (Z.to_nat k) (length p1))%nat with O
    by (unfold len in Hk; lia).
  cbn. apply app_nil_r.
Qed.

Lemma recombine_suffix (p1 p2 : melody) k :
  len p1 = len p2 -> 0 <= k <= len p1 ->
  skipn (Z.to_nat k) (recombine p1 p2 k) = skipn (Z.to_nat k) p2.
Proof.
  intros Hlen Hk. unfold recombine, slice_to, slice_from.
  rewrite !clip_in_range by lia.
  rewrite skipn_app, length_firstn.
  replace (Z.to_nat k - Nat.min (Z.to_nat k) (length p1))%nat with O
    by (unfold len in Hk; lia).
  rewrite skipn_all2 by (rewrite length_firstn; lia).
  reflexivity.
Qed.

Lemma recombine_Forall (P : gene -> Prop) (p1 p2 : melody) k :
  Forall P p1 -> Forall P p2 -> Forall P (recombine p1 p2 k).
Proof.
  intros H1 H2. apply Forall_forall. intros x Hx.
  apply in_app_or in Hx. destruct Hx as [Hx|Hx].
  - apply slice_to_incl in Hx. revert x Hx. now apply Forall_forall.
  - apply slice_from_incl in Hx. revert x Hx. now apply Forall_forall.
Qed.

Lemma crossover_split (p1 p2 : melody) g :
  2 <= len p1 ->
  exists split, crossover p1 p2 g = Ok (recombine p1 p2 split, advance g) /\
                1 <= split <= len p1 - 1.
Proof.
  intros Hl. unfold crossover, bind.
  destruct (randint_in_range 1 (len p1 - 1) g) as (k & -> & Hk); [lia|].
  exists k. split; [reflexivity|assumption].
Qed.

Lemma crossover_short (p1 p2 : melody) g :
  len p1 < 2 -> crossover p1 p2 g = Raise ValueError.
Proof.
  intros Hl. unfold crossover, bind. now rewrite randint_empty by lia.
Qed.

(** [mutate] returns its argument or overwrites one gene of it. *)
Lemma mutate_cases (c : melody) g :
  1 <= NUM_STRINGS cfg -> 0 <= MAX_FRET cfg -> c <> [] ->
  exists c' g', mutate cfg c g = Ok (c', g') /\
    (c' = c \/
     exists idx p, 0 <= idx < len c /\ in_bounds cfg p /\
                   c' = update c (Z.to_nat idx) p).
Proof.
  intros Hs Hf Hne. unfold mutate, bind, random.
  destruct (flt _ (MUTATION_RATE cfg)).
  - assert (Hlen : 1 <= len c).
    { destruct c; [contradiction|]. unfold len. cbn [length]. lia. }
    destruct (randint_in_range 0 (len c - 1) (advance g)) as (idx & -> & Hi);
      [lia|].
    destruct (generate_random_gene_in_bounds (advance (advance g)) Hs Hf)
      as (p & g' & -> & Hp).
    unfold lift, setitem.
    replace (idx <? 0) with false by (symmetry; apply Z.ltb_ge; lia).
    replace (idx <? 0) with false by (symmetry; apply Z.ltb_ge; lia).
    replace (len c <=? idx) with false by (symmetry; apply Z.leb_gt; lia).
    cbn. eexists _, _. split; [reflexivity|]. right.
    exists idx, p. split; [lia|]. split; [assumption|reflexivity].
  - eexists _, _. split; [reflexivity|]. now left.
Qed.

Lemma mutate_well_formed (c : melody) g :
  1 <= NUM_STRINGS cfg -> 0 <= MAX_FRET cfg -> c <> [] ->
  Forall (in_bounds cfg) c ->
  exists c' g', mutate cfg c g = Ok (c', g') /\
                len c' = len c /\ Forall (in_bounds cfg) c'.
Proof.
  intros Hs Hf Hne Hc.
  destruct (mutate_cases c g Hs Hf Hne) as (c' & g' & Hm & Hcase).
  exists c', g'. split; [assumption|].
  destruct Hcase as [->|(idx & p & Hi & Hp & ->)]; [now split|].
  split; [unfold len; now rewrite length_update|now apply Forall_update].
Qed.

End OperatorFacts.

(* ================================================================= *)
(** ** Facts about ranking *)

Section RankingFacts.

Context {A : Type} (key : A -> Z).

Lemma insert_desc_perm x l : Permutation (insert_desc key x l) (x :: l).
Proof.
  induction l as [|y l IH]; cbn; [reflexivity|].
  destruct (key x <? key y); [|reflexivity].
  rewrite IH. apply perm_swap.
Qed.

Lemma sort_desc_perm l : Permutation (sort_desc key l) l.
Proof.
  induction l as [|x l IH]; cbn; [reflexivity|].
  fold (sort_desc key l). rewrite insert_desc_perm. now constructor.
Qed.

Lemma insert_desc_head x l :
  exists b, hd_error (insert_desc key x l) = Some b /\
            key x <= key b /\
            (forall y, hd_error l = Some y -> key y <= key b).
Proof.
  destruct l as [|y l]; cbn.
  - exists x. repeat split; [lia|discriminate].
  - destruct (key x <? key y) eqn:E.
    + apply Z.ltb_lt in E. exists y. cbn. repeat split; [lia|].
      intros ? [= <-]. lia.
    + apply Z.ltb_ge in E. exists x. cbn. repeat split; [lia|].
      now intros ? [= <-].
Qed.

(** The first of the ranking is a greatest element. *)
Lemma sort_desc_head l :
  l <> [] ->
  exists b, hd_error (sort_desc key l) = Some b /\ In b l /\
            forall x, In x l -> key x <= key b.
Proof.
  induction l as [|x l IH]; [contradiction|]. intros _.
  cbn. fold (sort_desc key l).
  destruct (insert_desc_head x (sort_desc key l)) as (b & Hb & Hx & Hrest).
  exists b. split; [assumption|]. split.
  - assert (Hin : In b (x :: sort_desc key l)).
    { apply (Permutation_in b (insert_desc_perm x (sort_desc key l))).
      destruct (insert_desc key x (sort_desc key l)); [discriminate|].
      cbn in Hb. injection Hb as ->. now left. }
    destruct Hin as [<-|Hin]; [now left|]. right.
    now apply (Permutation_in b (sort_desc_perm l)).
  - intros y [<-|Hy]; [assumption|].
    destruct l as [|z l']; [contradiction|].
    destruct IH as (m & Hm & _ & Hmax); [discriminate|].
    specialize (Hrest m Hm). specialize (Hmax y Hy). lia.
Qed.

End RankingFacts.

Lemma getitem_head {A} (l : list A) a :
  hd_error l = Some a -> getitem l 0 = Ok a.
Proof. destruct l; [discriminate|]. now intros [= ->]. Qed.

Lemma fold_left_max_ge (ss : list Z) s :
  s <= fold_left Z.max ss s /\
  (forall x, In x ss -> x <= fold_left Z.max ss s).
Proof.
  revert s. induction ss as [|y ss IH]; intros s; cbn.
  - split; [lia|contradiction].
  - destruct (IH (Z.max s y)) as [H1 H2]. split; [lia|].
    intros x [<-|Hx]; [lia|auto].
Qed.

Lemma fold_left_max_In (ss : list Z) s : In (fold_left Z.max ss s) (s :: ss).
Proof.
  revert s. induction ss as [|y ss IH]; intros s; cbn; [now left|].
  destruct (IH (Z.max s y)) as [H|H]; [|now right; right].
  rewrite <- H. destruct (Z.max_spec s y) as [[_ ->]|[_ ->]]; auto.
Qed.

Lemma Forall2_In_l {A B} (R : A -> B -> Prop) l l' x :
  Forall2 R l l' -> In x l -> exists y, In y l' /\ R x y.
Proof.
  induction 1 as [|a b l l' Hab _ IH]; [contradiction|].
  intros [<-|Hx]; [exists b; cbn; auto|].
  destruct (IH Hx) as (y & Hy & HR). exists y. cbn. auto.
Qed.

Lemma Forall2_In_r {A B} (R : A -> B -> Prop) l l' y :
  Forall2 R l l' -> In y l' -> exists x, In x l /\ R x y.
Proof.
  induction 1 as [|a b l l' Hab _ IH]; [contradiction|].
  intros [<-|Hy]; [exists a; cbn; auto|].
  destruct (IH Hy) as (x & Hx & HR). exists x. cbn. auto.
Qed.

Section ScoringFacts.

Variable cfg : config.

Lemma evaluate_spec population scored :
  evaluate cfg population = Ok scored <->
  Forall2 (fun ind p => fst p = ind /\ fitness_function cfg ind = Ok (snd p))
          population scored.
Proof.
  unfold evaluate. rewrite mapR_Forall2. split; intros H.
  - eapply Forall2_impl; [|exact H]. intros ind [c z]. cbn.
    destruct (fitness_function cfg ind); cbn; [|discriminate].
    now intros [= <- <-].
  - eapply Forall2_impl; [|exact H]. intros ind [c z]. cbn.
    intros [-> ->]. reflexivity.
Qed.

Lemma evaluate_fst population scored :
  evaluate cfg population = Ok scored -> map fst scored = population.
Proof.
  rewrite evaluate_spec. induction 1 as [|ind p l l' [Hp _] _ IH]; cbn;
    [reflexivity|now rewrite Hp, IH].
Qed.

Lemma evaluate_In population scored p :
  evaluate cfg population = Ok scored -> In p scored ->
  In (fst p) population /\ fitness_function cfg (fst p) = Ok (snd p).
Proof.
  rewrite evaluate_spec. induction 1 as [|ind q l l' [Hq Hf] _ IH]; cbn;
    [contradiction|].
  intros [->|Hin]; [subst ind; auto|]. destruct (IH Hin); auto.
Qed.

Lemma evaluate_total population :
  (forall c, In c population -> exists z, fitness_function cfg c = Ok z) ->
  exists scored, evaluate cfg population = Ok scored.
Proof.
  intros H. unfold evaluate.
  apply mapR_total with (P := fun c => In c population).
  - intros c Hc. destruct (H c Hc) as (z & ->). cbn. eauto.
  - apply Forall_forall. auto.
Qed.

(** The greatest score bounds every score and is the score of a member. *)
Lemma best_score_spec population b :
  best_score cfg population = Ok b ->
  (exists c, In c population /\ fitness_function cfg c = Ok b) /\
  (forall c z, In c population -> fitness_function cfg c = Ok z -> z <= b).
Proof.
  unfold best_score.
  destruct (mapR (fitness_function cfg) population) as [scores|] eqn:E;
    cbn; [|discriminate].
  apply mapR_Forall2 in E.
  destruct scores as [|s ss]; [discriminate|]. intros [= <-].
  split.
  - destruct (Forall2_In_r _ _ _ _ E (fold_left_max_In ss s))
      as (c & Hc & Hf). eauto.
  - intros c z Hc Hz.
    destruct (Forall2_In_l _ _ _ _ E Hc) as (z' & Hz' & Hf).
    rewrite Hz in Hf. injection Hf as <-.
    destruct (fold_left_max_ge ss s) as [H1 H2].
    destruct Hz' as [<-|Hz']; auto.
Qed.

Lemma best_score_total population :
  population <> [] ->
  (forall c, In c population -> exists z, fitness_function cfg c = Ok z) ->
  exists b, best_score cfg population = Ok b.
Proof.
  intros Hne H. unfold best_score.
  destruct (mapR_total (fitness_function cfg) (fun c => In c population)
              population) as (scores & E).
  - auto.
  - apply Forall_forall. auto.
  - rewrite E. cbn. apply mapR_Forall2 in E.
    destruct scores as [|s ss]; [|eauto].
    inversion E; subst. contradiction.
Qed.

End ScoringFacts.

(* ================================================================= *)
(** ** Facts about one generation *)

Section GenerationFacts.

Variable cfg : config.
Hypothesis Hrun : runnable cfg.

Lemma well_formed_nonempty c : well_formed cfg c -> c <> [].
Proof.
  destruct Hrun as (HL & _). intros [Hlen _] ->.
  unfold len in Hlen. cbn in Hlen. lia.
Qed.

Lemma well_formed_fitness c :
  well_formed cfg c -> exists z, fitness_function cfg c = Ok z.
Proof.
  intros Hc. pose proof (well_formed_nonempty c Hc) as Hne.
  destruct Hrun as (_ & HS & _). destruct Hc as [_ Hc].
  apply fitness_total; [lia|assumption|assumption].
Qed.

Lemma breed_well_formed top g :
  top <> [] -> Forall (well_formed cfg) top ->
  exists child g', breed cfg top g = Ok (child, g') /\ well_formed cfg child.
Proof.
  intros Hne Htop. pose proof Hrun as (HL & HS & HF & _).
  unfold breed, bind.
  destruct (choice_In top g Hne) as (p1 & -> & H1).
  destruct (choice_In top (advance g) Hne) as (p2 & -> & H2).
  rewrite Forall_forall in Htop.
  destruct (Htop p1 H1) as [Hl1 Hb1]. destruct (Htop p2 H2) as [Hl2 Hb2].
  destruct (crossover_split p1 p2 (advance (advance g))) as (k & -> & Hk);
    [lia|].
  assert (Hlen : len (recombine p1 p2 k) = MELODY_LENGTH cfg).
  { rewrite recombine_length; [assumption|lia|lia]. }
  assert (Hb : Forall (in_bounds cfg) (recombine p1 p2 k))
    by now apply recombine_Forall.
  destruct (mutate_well_formed cfg (recombine p1 p2 k)
              (advance (advance (advance g)))) as (c & g' & -> & Hlc & Hbc);
    try assumption; try lia.
  { intros E. rewrite E in Hlen. unfold len in Hlen. cbn in Hlen. lia. }
  exists c, g'. split; [reflexivity|]. split; [lia|assumption].
Qed.

Lemma fill_spec n top new_pop g :
  top <> [] -> Forall (well_formed cfg) top ->
  Forall (well_formed cfg) new_pop ->
  exists children g',
    fill cfg n top new_pop g = Ok (new_pop ++ children, g') /\
    length children = n /\ Forall (well_formed cfg) children.
Proof.
  intros Hne Htop. revert new_pop g.
  induction n as [|n IH]; intros new_pop g Hnew; cbn [fill].
  - exists [], g. rewrite app_nil_r. repeat split. constructor.
  - unfold bind.
    destruct (breed_well_formed top g Hne Htop) as (child & g1 & -> & Hc).
    destruct (IH (new_pop ++ [child]) g1) as (cs & g2 & -> & Hlen & Hcs).
    { apply Forall_app. split; [assumption|]. now constructor. }
    exists (child :: cs), g2. rewrite <- app_assoc. cbn.
    repeat split; [congruence|now constructor].
Qed.

(** The count [fill] recurses on is the guard of the [while] loop: the
    body runs exactly when [len(new_pop) < POPULATION_SIZE], and an
    iteration leaves one iteration less to run. *)
Lemma fill_count_guard (new_pop : list melody) :
  Z.to_nat (POPULATION_SIZE cfg - len new_pop) <> O <->
  len new_pop < POPULATION_SIZE cfg.
Proof. lia. Qed.

Lemma fill_count_step (new_pop : list melody) child :
  Z.to_nat (POPULATION_SIZE cfg - len (new_pop ++ [child])) =
  Nat.pred (Z.to_nat (POPULATION_SIZE cfg - len new_pop)).
Proof. rewrite len_app. change (len [child]) with 1. lia. Qed.

(** One generation keeps the population well formed and puts a candidate
    of greatest score at its head. *)
Lemma generation_spec population gen g :
  population_ok cfg population ->
  exists new_pop g' elite s,
    generation cfg population gen g = Ok (new_pop, g') /\
    population_ok cfg new_pop /\
    hd_error new_pop = Some elite /\
    In elite population /\
    fitness_function cfg elite = Ok s /\
    (forall c z, In c population -> fitness_function cfg c = Ok z -> z <= s).
Proof.
  intros [Hsize Hwf]. pose proof Hrun as (HL & HS & HF & HN & k & Hk & Hk1).
  rewrite Forall_forall in Hwf.
  destruct (evaluate_total cfg population) as (scored & Hev).
  { intros c Hc. apply well_formed_fitness. auto. }
  assert (Hne : scored <> []).
  { intros ->. apply evaluate_fst in Hev. subst population.
    unfold len in Hsize. cbn in Hsize. lia. }
  destruct (sort_desc_head snd scored Hne) as (b & Hhd & Hb & Hmax).
  destruct (evaluate_In cfg _ _ _ Hev Hb) as [Hbin Hbfit].
  assert (Htop : forall c, In c (map fst (slice_to (sort_desc snd scored) k)) ->
                           In c population).
  { intros c Hc. apply in_map_iff in Hc. destruct Hc as (p & <- & Hp).
    apply slice_to_incl in Hp.
    apply (Permutation_in p (sort_desc_perm snd scored)) in Hp.
    now destruct (evaluate_In cfg _ _ _ Hev Hp). }
  assert (Hel : hd_error (map fst (slice_to (sort_desc snd scored) k))
                = Some (fst b)).
  { pose proof (slice_to_head _ k b Hk1 Hhd) as H.
    destruct (slice_to (sort_desc snd scored) k); [discriminate|].
    cbn in H. injection H as ->. reflexivity. }
  unfold generation, bind, lift. rewrite Hev.
  assert (Hlog : exists z,
             (if gen mod 50 =? 0
              then try best <- getitem (sort_desc snd scored) 0; Ok (snd best)
              else Ok 0) = Ok z).
  { destruct (gen mod 50 =? 0); [|eauto].
    rewrite (getitem_head _ _ Hhd). cbn. eauto. }
  destruct Hlog as (z0 & ->). rewrite Hk.
  rewrite (getitem_head _ _ Hel).
  destruct (fill_spec (Z.to_nat (POPULATION_SIZE cfg - len [fst b]))
              (map fst (slice_to (sort_desc snd scored) k)) [fst b] g)
    as (cs & g' & -> & Hlen & Hcs).
  { intros E. rewrite E in Hel. discriminate. }
  { apply Forall_forall. auto. }
  { constructor; [auto|constructor]. }
  exists ([fst b] ++ cs), g', (fst b), (snd b).
  split; [reflexivity|]. split; [|split; [reflexivity|]].
  - split.
    + rewrite len_app. unfold len at 2. rewrite Hlen.
      change (len [fst b]) with 1. lia.
    + apply Forall_app. split; [|assumption].
      constructor; [auto|constructor].
  - split; [assumption|]. split; [assumption|].
    intros c z Hc Hz.
    apply evaluate_spec in Hev.
    destruct (Forall2_In_l _ _ _ _ Hev Hc) as (p & Hp & _ & Hf).
    rewrite Hz in Hf. injection Hf as ->. auto.
Qed.

Lemma initial_population_ok g :
  exists population g',
    initial_population cfg g = Ok (population, g') /\
    population_ok cfg population.
Proof.
  pose proof Hrun as (HL & HS & HF & HN & _).
  unfold initial_population.
  destruct (replicateM_spec (well_formed cfg) (generate_individual cfg))
    with (n := Z.to_nat (POPULATION_SIZE cfg)) (g := g)
    as (pop & g' & Hpop & Hlen & Hwf).
  { intros g0.
    destruct (generate_individual_well_formed cfg g0) as (c & g1 & -> & Hl & Hc);
      [lia|lia|].
    exists c, g1. split; [reflexivity|]. split; [unfold len; lia|assumption]. }
  exists pop, g'. split; [assumption|]. split; [unfold len; lia|assumption].
Qed.

Lemma foldM_generation_ok gens population g :
  population_ok cfg population ->
  exists new_pop g',
    foldM (generation cfg) gens population g = Ok (new_pop, g') /\
    population_ok cfg new_pop.
Proof.
  revert population g. induction gens as [|gen gens IH];
    intros population g Hpop; cbn [foldM].
  - exists population, g. now split.
  - unfold bind.
    destruct (generation_spec population gen g Hpop)
      as (p1 & g1 & _ & _ & -> & Hp1 & _).
    now apply IH.
Qed.

Lemma population_at_ok n g :
  exists population g',
    population_at cfg n g = Ok (population, g') /\
    population_ok cfg population.
Proof.
  unfold population_at, bind, evolve.
  destruct (initial_population_ok g) as (p0 & g0 & -> & Hp0).
  now apply foldM_generation_ok.
Qed.

(** The population of iteration [n + 1] is one generation away from the
    population of iteration [n]. *)
Lemma population_at_succ n g :
  0 <= n ->
  population_at cfg (n + 1) g =
  (run population <- population_at cfg n; generation cfg population n) g.
Proof.
  intros Hn. unfold population_at, bind, evolve.
  destruct (initial_population cfg g) as [[p0 g0]|e]; [|reflexivity].
  rewrite range_succ by assumption. rewrite foldM_app. unfold bind.
  destruct (foldM (generation cfg) (range n) p0 g0) as [[p g1]|e];
    [|reflexivity].
  cbn [foldM]. unfold bind, ret.
  now destruct (generation cfg p n g1) as [[p' g2]|e].
Qed.

Lemma genetic_algorithm_total g :
  exists best g', genetic_algorithm cfg g = Ok (best, g').
Proof.
  unfold genetic_algorithm.
  pose proof (population_at_ok (NUM_GENERATIONS cfg) g) as (p & g' & Hp & Hok).
  unfold population_at in Hp. unfold bind in *.
  destruct (initial_population cfg g) as [[p0 g0]|e]; [|discriminate].
  rewrite Hp. unfold lift.
  destruct Hok as [Hsize Hwf]. pose proof Hrun as (_ & _ & _ & HN & _).
  destruct p as [|x p]; [unfold len in Hsize; cbn in Hsize; lia|].
  cbn [max_by].
  inversion Hwf as [|? ? Hx Hp']; subst.
  destruct (well_formed_fitness x Hx) as (kx & ->). cbn [bindR].
  destruct (foldR_total
              (fun (best : melody * Z) y =>
                 try ky <- fitness_function cfg y;
                 Ok (if ky >? snd best then (y, ky) else best))
              p (x, kx)) as (r & ->).
  { intros s y Hy. rewrite Forall_forall in Hp'.
    destruct (well_formed_fitness y (Hp' y Hy)) as (ky & ->). cbn. eauto. }
  cbn. eauto.
Qed.

End GenerationFacts.

(* ================================================================= *)
(** ** The configuration of the program *)

Ltac solve_runnable :=
  unfold runnable; cbn;
  repeat match goal with
         | |- _ /\ _ => split
         | |- exists _, _ => eexists
         | |- _ = Ok _ => vm_compute; reflexivity
         | |- _ => lia
         end.

Lemma GTG_runnable : runnable GTG.
Proof. solve_runnable. Qed.

Lemma no_scale_runnable : runnable no_scale.
Proof. solve_runnable. Qed.

Example pool_of_GTG : breeding_pool_size GTG = Ok 30.
Proof. vm_compute. reflexivity. Qed.

Example lit_0_3_is_3_tenths :
  SFdiv prec emax (binary_normalize prec emax 3 0 false)
                  (binary_normalize prec emax 10 0 false) = lit_0_3.
Proof. vm_compute. reflexivity. Qed.

Example lit_0_1_is_1_tenth :
  SFdiv prec emax (binary_normalize prec emax 1 0 false)
                  (binary_normalize prec emax 10 0 false) = lit_0_1.
Proof. vm_compute. reflexivity. Qed.

Example pool_of_small_populations :
  map (fun n => bindR (float_of_int n) (fun x => int_of_float (fmul x lit_0_3)))
      [0; 1; 2; 3; 4; 7; 10; -10]
  = [Ok 0; Ok 0; Ok 0; Ok 0; Ok 1; Ok 2; Ok 3; Ok (-3)].
Proof. vm_compute. reflexivity. Qed.

Example ranking_is_stable :
  sort_desc snd [(1, 5); (2, 7); (3, 5); (4, 9); (5, 7)]
  = [(4, 9); (2, 7); (5, 7); (1, 5); (3, 5)].
Proof. reflexivity. Qed.

Example negative_index : getitem [40; 45; 50] (-1) = Ok 50.
Proof. reflexivity. Qed.

Example index_out_of_range : getitem [40; 45; 50] 3 = Raise IndexError.
Proof. reflexivity. Qed.

Example negative_slice_bound : slice_to [1; 2; 3; 4] (-3) = [1].
Proof. reflexivity. Qed.

Example mutate_empty_raises : mutate GTG [] zeros = Raise ValueError.
Proof. vm_compute. reflexivity. Qed.

Example mutate_fires :
  exists r, mutate GTG [(1, 2); (3, 4)] zeros = Ok ([(0, 0); (3, 4)], r).
Proof. eexists. vm_compute. reflexivity. Qed.

Example mutate_spares :
  exists r,
    mutate GTG [(1, 2); (3, 4)] (fun _ => 2 ^ 52) = Ok ([(1, 2); (3, 4)], r).
Proof. eexists. vm_compute. reflexivity. Qed.

Example tonic_note_earns_the_bonus :
  fitness_function GTG [(1, 3)] = Ok 45 /\ fitness_function GTG [(1, 5)] = Ok 10.
Proof. split; reflexivity. Qed.

Example crossover_one_note_raises :
  crossover [(1, 2)] [(3, 4)] counting = Raise ValueError.
Proof. reflexivity. Qed.

(** The loop of [genetic_algorithm] goes through [population_at g] for
    every [g] up to the generation budget. *)
Lemma genetic_algorithm_through cfg g r :
  0 <= g <= NUM_GENERATIONS cfg ->
  exists rest,
    genetic_algorithm cfg r =
    (run population <- population_at cfg g;
     run population <- foldM (generation cfg) rest population;
     lift (max_by (fitness_function cfg) population)) r.
Proof.
  intros Hg. destruct (range_split g (NUM_GENERATIONS cfg) Hg) as (rest & E).
  exists rest. unfold genetic_algorithm, population_at, evolve, bind.
  destruct (initial_population cfg r) as [[p0 r0]|e]; [|reflexivity].
  rewrite E, foldM_app. unfold bind.
  now destruct (foldM (generation cfg) (range g) p0 r0) as [[p1 r1]|e].
Qed.

(* ================================================================= *)
(** ** Properties of the specification *)

(** C1. With elitism the best score of the population never decreases
    from one generation to the next: on a runnable configuration, for
    every generation [g] of the budget and every random source, the
    populations of generations [g] and [g + 1] exist, the head of the
    second is a candidate of the first whose score is the best score of
    the first, and the best score of the second is at least that. *)
Theorem elitism_best_score_monotone (cfg : config) (g : Z) (r : rng) :
  runnable cfg ->
  0 <= g < NUM_GENERATIONS cfg ->
  exists population r1 new_pop r2 elite b b',
    population_at cfg g r = Ok (population, r1) /\
    generation cfg population g r1 = Ok (new_pop, r2) /\
    population_at cfg (g + 1) r = Ok (new_pop, r2) /\
    hd_error new_pop = Some elite /\
    In elite population /\
    fitness_function cfg elite = Ok b /\
    best_score cfg population = Ok b /\
    best_score cfg new_pop = Ok b' /\
    b <= b'.
Proof.
  intros Hrun Hg.
  destruct (population_at_ok cfg Hrun g r) as (pop & r1 & Hpop & Hok).
  destruct (generation_spec cfg Hrun pop g r1 Hok)
    as (pop' & r2 & elite & s & Hgen & Hok' & Hhd & Hin & Hfit & Hmax).
  assert (Hin' : In elite pop').
  { destruct pop'; [discriminate|]. cbn in Hhd. injection Hhd as ->. now left. }
  destruct (best_score_total cfg pop) as (b & Hb).
  { intros ->. contradiction. }
  { intros c Hc. apply (well_formed_fitness cfg Hrun).
    destruct Hok as [_ Hwf]. rewrite Forall_forall in Hwf. auto. }
  destruct (best_score_total cfg pop') as (b' & Hb').
  { intros ->. contradiction. }
  { intros c Hc. apply (well_formed_fitness cfg Hrun).
    destruct Hok' as [_ Hwf]. rewrite Forall_forall in Hwf. auto. }
  destruct (best_score_spec cfg pop b Hb) as [(c & Hc & Hcb) Hub].
  destruct (best_score_spec cfg pop' b' Hb') as [_ Hub'].
  assert (b = s) by (specialize (Hmax c b Hc Hcb);
                     specialize (Hub elite s Hin Hfit); lia).
  subst s.
  exists pop, r1, pop', r2, elite, b, b'.
  repeat split; try assumption.
  - rewrite population_at_succ by lia. unfold bind. now rewrite Hpop.
  - now apply (Hub' elite b).
Qed.

Lemma elitism_best_score_monotone_witness :
  exists population r1 new_pop r2 elite b b',
    population_at GTG 0 zeros = Ok (population, r1) /\
    generation GTG population 0 r1 = Ok (new_pop, r2) /\
    population_at GTG (0 + 1) zeros = Ok (new_pop, r2) /\
    hd_error new_pop = Some elite /\
    In elite population /\
    fitness_function GTG elite = Ok b /\
    best_score GTG population = Ok b /\
    best_score GTG new_pop = Ok b' /\
    b <= b'.
Proof.
  apply (elitism_best_score_monotone GTG 0 zeros).
  - solve_runnable.
  - cbn. lia.
Defined.

(** C2. For parents [A] and [B] of one length [L] and every split index
    [k] of [[1, L-1]], the child built at split [k] has length [L], its
    first [k] positions are those of [A] and its positions from [k]
    onward are those of [B]; some random source makes [crossover] split
    at [k]; and whatever the random source, [crossover] returns the
    child of a split index between [1] and [L-1], never [0] and never
    [L]. *)
Theorem crossover_prefix_suffix (A B : melody) (k : Z) :
  len A = len B ->
  1 <= k <= len A - 1 ->
  (len (recombine A B k) = len A /\
   firstn (Z.to_nat k) (recombine A B k) = firstn (Z.to_nat k) A /\
   skipn (Z.to_nat k) (recombine A B k) = skipn (Z.to_nat k) B) /\
  (exists r, crossover A B r = Ok (recombine A B k, advance r)) /\
  (forall r, exists split,
      crossover A B r = Ok (recombine A B split, advance r) /\
      1 <= split <= len A - 1 /\ split <> 0 /\ split <> len A).
Proof.
  intros Hlen Hk. split; [|split].
  - split; [|split].
    + apply recombine_length; [assumption|lia].
    + apply recombine_prefix. lia.
    + apply recombine_suffix; [assumption|lia].
  - exists (fun _ => k - 1). unfold crossover, bind.
    now rewrite randint_onto by lia.
  - intros r. destruct (crossover_split A B r) as (split & Hc & Hs); [lia|].
    exists split. split; [assumption|]. lia.
Qed.

Lemma crossover_prefix_suffix_witness :
  (len (recombine [(0, 1); (1, 2); (2, 3)] [(3, 4); (4, 5); (5, 6)] 2) = 3 /\
   firstn 2 (recombine [(0, 1); (1, 2); (2, 3)] [(3, 4); (4, 5); (5, 6)] 2)
   = [(0, 1); (1, 2)] /\
   skipn 2 (recombine [(0, 1); (1, 2); (2, 3)] [(3, 4); (4, 5); (5, 6)] 2)
   = [(5, 6)]) /\
  (exists r, crossover [(0, 1); (1, 2); (2, 3)] [(3, 4); (4, 5); (5, 6)] r
             = Ok (recombine [(0, 1); (1, 2); (2, 3)]
                             [(3, 4); (4, 5); (5, 6)] 2, advance r)) /\
  (forall r, exists split,
      crossover [(0, 1); (1, 2); (2, 3)] [(3, 4); (4, 5); (5, 6)] r
      = Ok (recombine [(0, 1); (1, 2); (2, 3)]
                      [(3, 4); (4, 5); (5, 6)] split, advance r) /\
      1 <= split <= 3 - 1 /\ split <> 0 /\ split <> 3).
Proof.
  apply (crossover_prefix_suffix
           [(0, 1); (1, 2); (2, 3)] [(3, 4); (4, 5); (5, 6)] 2).
  - reflexivity.
  - cbn. lia.
Defined.

(** C3. On a runnable configuration, for every generation [g] from [0]
    to the generation budget and every random source, the population of
    generation [g] exists, holds exactly [POPULATION_SIZE] candidates,
    and every one of them has exactly [MELODY_LENGTH] positions. *)
Theorem population_shape_invariant (cfg : config) (g : Z) (r : rng) :
  runnable cfg ->
  0 <= g <= NUM_GENERATIONS cfg ->
  exists population r',
    population_at cfg g r = Ok (population, r') /\
    len population = POPULATION_SIZE cfg /\
    Forall (fun c => len c = MELODY_LENGTH cfg) population.
Proof.
  intros Hrun _.
  destruct (population_at_ok cfg Hrun g r) as (pop & r' & Hpop & Hsize & Hwf).
  exists pop, r'. repeat split; try assumption.
  eapply Forall_impl; [|exact Hwf]. now intros c [Hc _].
Qed.

Lemma population_shape_invariant_witness :
  exists population r',
    population_at GTG 200 counting = Ok (population, r') /\
    len population = POPULATION_SIZE GTG /\
    Forall (fun c => len c = MELODY_LENGTH GTG) population.
Proof.
  apply (population_shape_invariant GTG 200 counting).
  - solve_runnable.
  - cbn. lia.
Defined.

(** C4, as the code scores the scenario.  In the one-note scenario the
    candidates [[(5,0)]] (pitch 64, chroma 4) and [[(5,1)]] (pitch 65,
    chroma 5) score the same, 10 each: both chromas are in key and
    neither is the tonic or the dominant, the only reward tiers of the
    harmony term. *)
Theorem scenario_A_scores_equal :
  midi_of one_note (5, 0) = Ok 64 /\
  midi_of one_note (5, 1) = Ok 65 /\
  harmony one_note (64 mod 12) = harmony one_note (65 mod 12) /\
  fitness_function one_note [(5, 0)] = Ok 10 /\
  fitness_function one_note [(5, 1)] = Ok 10.
Proof. repeat split; vm_compute; reflexivity. Qed.

(** C4 as stated fails: the first score is not strictly greater. *)
Lemma scenario_A_not_strictly_greater :
  ~ (exists a b,
        fitness_function one_note [(5, 0)] = Ok a /\
        fitness_function one_note [(5, 1)] = Ok b /\
        a > b).
Proof.
  intros (a & b & Ha & Hb & Hab).
  vm_compute in Ha, Hb.
  injection Ha as <-. injection Hb as <-. lia.
Qed.

(** C5, as the code scores it.  Let [c] and [c'] be two candidates of
    length at least two that share every position but the last, [c]
    ending on the tonic and [c'] on another chroma of the key, the tonic
    being in key.  Both scores exist, and the score of [c] is the score
    of [c'] plus the resolution bonus 30, plus 5 for the tonic's harmony
    bonus unless [c'] ends on the dominant, plus the difference of the
    technique and contour penalties of the two last pairs. *)
Theorem tonic_ending_score_difference
    (cfg : config) (pre : melody) (q a b : gene) (mq ma mb : Z) :
  NUM_STRINGS cfg <= len (TUNING cfg) ->
  Forall (in_bounds cfg) pre ->
  midi_of cfg q = Ok mq ->
  midi_of cfg a = Ok ma ->
  midi_of cfg b = Ok mb ->
  ma mod 12 = 0 ->
  mb mod 12 <> 0 ->
  mem 0 (SCALE_C_MAJOR cfg) = true ->
  mem (mb mod 12) (SCALE_C_MAJOR cfg) = true ->
  exists s s',
    fitness_function cfg (pre ++ [q; a]) = Ok s /\
    fitness_function cfg (pre ++ [q; b]) = Ok s' /\
    s = s' + 30
        + (if mb mod 12 =? 7 then 0 else 5)
        + (technique q b + contour mq mb)
        - (technique q a + contour mq ma).
Proof.
  intros Ht Hpre Hq Ha Hb Hta Htb Hin0 Hinb.
  destruct (midi_notes_in_bounds cfg pre Ht Hpre) as (ms & Hms).
  assert (Hlen : length ms = length pre)
    by (apply mapR_Forall2, Forall2_length in Hms; lia).
  assert (Hall : mapR (midi_of cfg) (pre ++ [q]) = Ok (ms ++ [mq])).
  { apply mapR_Forall2. apply Forall2_app; [now apply mapR_Forall2|].
    constructor; [assumption|constructor]. }
  assert (Hlast : len (pre ++ [q]) - 1 = len pre)
    by (rewrite len_app; change (len [q]) with 1; lia).
  assert (Hgq : getitem (pre ++ [q]) (len (pre ++ [q]) - 1) = Ok q)
    by (rewrite Hlast; apply getitem_app2).
  assert (Hgm : getitem (ms ++ [mq]) (len (pre ++ [q]) - 1) = Ok mq).
  { rewrite Hlast. replace (len pre) with (len ms) by (unfold len; lia).
    apply getitem_app2. }
  destruct (foldR_total (score_step cfg (pre ++ [q]) (ms ++ [mq]))
              (range (len (pre ++ [q]))) 0) as (s0 & Hs0).
  { intros s i Hi. apply In_range in Hi. apply score_step_total; [|assumption].
    rewrite !len_app. unfold len. cbn. lia. }
  replace (pre ++ [q; a]) with ((pre ++ [q]) ++ [a])
    by (now rewrite <- app_assoc).
  replace (pre ++ [q; b]) with ((pre ++ [q]) ++ [b])
    by (now rewrite <- app_assoc).
  rewrite (fitness_snoc cfg _ _ q mq a ma Hall Hgq Hgm Ha).
  rewrite (fitness_snoc cfg _ _ q mq b mb Hall Hgq Hgm Hb).
  rewrite Hs0. cbn [bindR].
  eexists _, _. split; [reflexivity|]. split; [reflexivity|].
  rewrite Hta. unfold harmony. rewrite Hin0, Hinb.
  unfold resolution.
  replace (mb mod 12 =? 0) with false by (symmetry; apply Z.eqb_neq; lia).
  cbn [Z.eqb orb]. destruct (mb mod 12 =? 7); lia.
Qed.

Lemma tonic_ending_score_difference_witness :
  exists s s',
    fitness_function GTG ([(0, 0)] ++ [(1, 5); (1, 3)]) = Ok s /\
    fitness_function GTG ([(0, 0)] ++ [(1, 5); (2, 5)]) = Ok s' /\
    s = s' + 30
        + (if 55 mod 12 =? 7 then 0 else 5)
        + (technique (1, 5) (2, 5) + contour 50 55)
        - (technique (1, 5) (1, 3) + contour 50 48).
Proof.
  apply (tonic_ending_score_difference GTG [(0, 0)] (1, 5) (1, 3) (2, 5));
    try reflexivity.
  - repeat constructor; cbn; lia.
  - cbn. lia.
Defined.

(** C5 as stated fails: a candidate ending on the tonic against the same
    candidate ending on the mediant, with equal technique and contour
    penalties on the last pair, scores 35 more, not 30. *)
Lemma tonic_ending_not_exactly_30 :
  midi_of GTG (1, 3) = Ok 48 /\ 48 mod 12 = 0 /\
  midi_of GTG (1, 7) = Ok 52 /\ 52 mod 12 = 4 /\
  mem 4 (SCALE_C_MAJOR GTG) = true /\
  fitness_function GTG [(1, 5); (1, 3)] = Ok 51 /\
  fitness_function GTG [(1, 5); (1, 7)] = Ok 16 /\
  51 <> 16 + 30.
Proof. repeat split; try (vm_compute; reflexivity). lia. Qed.


(** C7. With at least one string and a non-negative fret ceiling, a call
    of [mutate] on a non-empty candidate returns a candidate of the same
    length that differs from it in at most one position, and a position
    that changed holds a gene within the configured bounds. *)
Theorem mutate_changes_at_most_one (cfg : config) (c : melody) (r : rng) :
  1 <= NUM_STRINGS cfg ->
  0 <= MAX_FRET cfg ->
  c <> [] ->
  exists c' r',
    mutate cfg c r = Ok (c', r') /\
    length c' = length c /\
    (differences c c' <= 1)%nat /\
    (forall i p, nth_error c' i = Some p -> nth_error c i <> Some p ->
                 in_bounds cfg p).
Proof.
  intros Hs Hf Hne.
  destruct (mutate_cases cfg c r Hs Hf Hne) as (c' & r' & Hm & Hcase).
  exists c', r'. split; [assumption|].
  destruct Hcase as [->|(idx & p & Hi & Hp & ->)].
  - split; [reflexivity|]. split; [rewrite differences_refl; lia|].
    intros i p H1 H2. contradiction.
  - split; [apply length_update|]. split; [apply differences_update|].
    intros i p' H1 H2. rewrite nth_error_update in H1.
    destruct (Nat.eqb i (Z.to_nat idx)); [|contradiction].
    destruct (Nat.ltb (Z.to_nat idx) (length c)); [|discriminate].
    now injection H1 as <-.
Qed.

Lemma mutate_changes_at_most_one_witness :
  exists c' r',
    mutate GTG [(1, 2); (3, 4)] zeros = Ok (c', r') /\
    length c' = length [(1, 2); (3, 4)] /\
    (differences [(1, 2); (3, 4)]%Z c' <= 1)%nat /\
    (forall i p, nth_error c' i = Some p ->
                 nth_error [(1, 2); (3, 4)] i <> Some p ->
                 in_bounds GTG p).
Proof.
  apply (mutate_changes_at_most_one GTG [(1, 2); (3, 4)] zeros).
  - cbn. lia.
  - cbn. lia.
  - discriminate.
Defined.

(** C8. When the tuning table covers every string, the score of a
    candidate of length at least one whose positions are within bounds
    is an integer (no exception); scoring neither reads nor advances the
    random source, so that it returns that same integer in whatever
    state the source is and leaves the source as it found it; and a
    one-note candidate of chroma [ch] scores 15 when [ch] is the tonic
    or the dominant and in key, 10 when it is another chroma of the key,
    -50 when it is out of key, plus 30 when [ch] is the tonic, and
    nothing else: no pair term, and the resolution bonus in full. *)
Theorem fitness_total_and_deterministic (cfg : config) (c : melody) :
  NUM_STRINGS cfg <= len (TUNING cfg) ->
  1 <= len c ->
  Forall (in_bounds cfg) c ->
  (exists z,
      fitness_function cfg c = Ok z /\
      forall r, lift (fitness_function cfg c) r = Ok (z, r)) /\
  (forall g, c = [g] ->
     exists m,
       get_note_midi cfg (fst g) (snd g) = Ok m /\
       fitness_function cfg c
       = Ok ((if existsb (Z.eqb (m mod 12)) (SCALE_C_MAJOR cfg)
              then (if (m mod 12 =? 0) || (m mod 12 =? 7) then 15 else 10)
              else -50)
             + (if m mod 12 =? 0 then 30 else 0))).
Proof.
  intros Ht Hlen Hc. split.
  - destruct (fitness_total cfg c) as (z & Hz); try assumption.
    { intros ->. unfold len in Hlen. cbn in Hlen. lia. }
    exists z. split; [assumption|]. intros r. unfold lift. now rewrite Hz.
  - intros g ->. inversion Hc as [|? ? Hg _]; subst.
    destruct (get_note_midi_in_bounds cfg g Ht Hg) as (m & Hm).
    exists m. split; [assumption|].
    rewrite (fitness_single cfg g m Hm). unfold harmony, resolution, mem.
    f_equal. f_equal.
    destruct (existsb (Z.eqb (m mod 12)) (SCALE_C_MAJOR cfg)); [|reflexivity].
    destruct ((m mod 12 =? 0) || (m mod 12 =? 7)); reflexivity.
Qed.

Lemma fitness_total_and_deterministic_witness :
  (exists z,
      fitness_function GTG [(1, 3)] = Ok z /\
      forall r, lift (fitness_function GTG [(1, 3)]) r = Ok (z, r)) /\
  (forall g, [(1, 3)] = [g] ->
     exists m,
       get_note_midi GTG (fst g) (snd g) = Ok m /\
       fitness_function GTG [(1, 3)]
       = Ok ((if existsb (Z.eqb (m mod 12)) (SCALE_C_MAJOR GTG)
              then (if (m mod 12 =? 0) || (m mod 12 =? 7) then 15 else 10)
              else -50)
             + (if m mod 12 =? 0 then 30 else 0))).
Proof.
  apply (fitness_total_and_deterministic GTG [(1, 3)]).
  - unfold len. cbn. lia.
  - unfold len. cbn. lia.
  - repeat constructor; cbn; lia.
Defined.

(** C10. The score of the empty candidate is not a number: reading the
    last element of the empty list of pitches raises, and so does
    [fitness_function], whatever the configuration. *)
Theorem fitness_of_empty_raises (cfg : config) :
  mapR (midi_of cfg) [] = Ok [] /\
  getitem (@nil Z) (-1) = Raise IndexError /\
  fitness_function cfg [] = Raise IndexError.
Proof. repeat split. Qed.

(* ================================================================= *)
(** ** Further properties of the program *)

(* ----------------------------------------------------------------- *)
(** *** Ranking and selection *)

Section RankingOrder.

Context {A : Type} (key : A -> Z).

Let above (a b : A) : Prop := key b <= key a.

Lemma insert_desc_sorted x l :
  StronglySorted above l -> StronglySorted above (insert_desc key x l).
Proof.
  induction 1 as [|y l Hl IH Hy]; cbn.
  - constructor; constructor.
  - destruct (key x <? key y) eqn:E.
    + apply Z.ltb_lt in E. constructor; [assumption|].
      apply Forall_forall. intros z Hz.
      apply (Permutation_in z (insert_desc_perm key x l)) in Hz.
      destruct Hz as [<-|Hz]; [unfold above; lia|].
      rewrite Forall_forall in Hy. auto.
    + apply Z.ltb_ge in E. constructor; [now constructor|].
      constructor; [exact E|].
      eapply Forall_impl; [|exact Hy]. unfold above. intros z Hz. lia.
Qed.

Lemma sort_desc_sorted l : StronglySorted above (sort_desc key l).
Proof.
  induction l as [|x l IH]; cbn; [constructor|].
  now apply insert_desc_sorted.
Qed.

Lemma insert_desc_filter x l k :
  filter (fun a => key a =? k) (insert_desc key x l) =
  filter (fun a => key a =? k) (x :: l).
Proof.
  induction l as [|y l IH]; [reflexivity|].
  cbn [insert_desc]. destruct (key x <? key y) eqn:E; [|reflexivity].
  apply Z.ltb_lt in E. cbn [filter] in *. rewrite IH.
  destruct (key x =? k) eqn:Ex, (key y =? k) eqn:Ey; try reflexivity.
  apply Z.eqb_eq in Ex, Ey. lia.
Qed.

Lemma sorted_split_dominates l n p q :
  StronglySorted above l ->
  In p (firstn n l) -> In q (skipn n l) -> key q <= key p.
Proof.
  intros Hl. revert n. induction Hl as [|y l Hl IH Hy]; intros n Hp Hq.
  - now rewrite firstn_nil in Hp.
  - destruct n as [|n]; [contradiction|]. cbn in Hp, Hq.
    destruct Hp as [<-|Hp]; [|eauto].
    rewrite Forall_forall in Hy. apply Hy.
    rewrite <- (firstn_skipn n l). apply in_or_app. now right.
Qed.

End RankingOrder.

(** X1. The ranking [sort(key=..., reverse=True)] rearranges the scored
    population without losing or adding an entry, and puts it in
    non-increasing order of key. *)
Theorem ranking_sorted_permutation {A} (key : A -> Z) (l : list A) :
  Permutation (sort_desc key l) l /\
  StronglySorted (fun a b => key b <= key a) (sort_desc key l).
Proof. split; [apply sort_desc_perm|apply sort_desc_sorted]. Qed.

(** X2. The ranking is stable: the entries of any one key keep the
    order they had before the sort. *)
Theorem ranking_stable {A} (key : A -> Z) (l : list A) (k : Z) :
  filter (fun a => key a =? k) (sort_desc key l) =
  filter (fun a => key a =? k) l.
Proof.
  induction l as [|x l IH]; [reflexivity|].
  cbn [sort_desc fold_right]. fold (sort_desc key l).
  rewrite insert_desc_filter. cbn [filter]. now rewrite IH.
Qed.

(** X3. Selection keeps the best: with a non-negative pool size [k], the
    ranked population splits into the pool [ranked[:k]] of
    [min(k, len)] entries and the rest, and no entry of the rest scores
    higher than an entry of the pool. *)
Theorem selection_keeps_the_best
    (scored : list (melody * Z)) (k : Z) (p q : melody * Z) :
  0 <= k ->
  In p (slice_to (sort_desc snd scored) k) ->
  In q (slice_from (sort_desc snd scored) k) ->
  snd q <= snd p /\
  len (slice_to (sort_desc snd scored) k) = Z.min k (len scored) /\
  slice_to (sort_desc snd scored) k ++ slice_from (sort_desc snd scored) k
  = sort_desc snd scored.
Proof.
  intros Hk Hp Hq. split; [|split].
  - eapply sorted_split_dominates; [apply sort_desc_sorted|exact Hp|exact Hq].
  - unfold slice_to, clip.
    replace (k <? 0) with false by (symmetry; apply Z.ltb_ge; lia).
    assert (E : len (sort_desc snd scored) = len scored).
    { unfold len. now rewrite (Permutation_length (sort_desc_perm snd scored)). }
    rewrite E. unfold len at 1. rewrite length_firstn.
    fold (len (sort_desc snd scored)). unfold len in *. lia.
  - apply firstn_skipn.
Qed.

Lemma selection_keeps_the_best_witness :
  3 <= 7 /\
  len (slice_to (sort_desc snd [([(0, 0)], 3); ([(1, 1)], 9); ([(2, 2)], 7)]) 2)
  = Z.min 2 (len [([(0, 0)], 3); ([(1, 1)], 9); ([(2, 2)], 7)]) /\
  slice_to (sort_desc snd [([(0, 0)], 3); ([(1, 1)], 9); ([(2, 2)], 7)]) 2
  ++ slice_from (sort_desc snd [([(0, 0)], 3); ([(1, 1)], 9); ([(2, 2)], 7)]) 2
  = sort_desc snd [([(0, 0)], 3); ([(1, 1)], 9); ([(2, 2)], 7)].
Proof.
  apply (selection_keeps_the_best
           [([(0, 0)], 3); ([(1, 1)], 9); ([(2, 2)], 7)] 2
           ([(2, 2)], 7) ([(0, 0)], 3)).
  - lia.
  - vm_compute. auto.
  - vm_compute. auto.
Defined.

(* ----------------------------------------------------------------- *)
(** *** The final choice *)

Section MaxBy.

Context {A : Type} (key : A -> result Z).

Let step (best : A * Z) (y : A) : result (A * Z) :=
  try ky <- key y; Ok (if ky >? snd best then (y, ky) else best).

(** [b] with key [kb] is the first greatest element of [l1 ++ b :: l2]. *)
Let first_max (l1 : list A) (b : A) (kb : Z) (l2 : list A) : Prop :=
  key b = Ok kb /\
  (forall x kx, In x l1 -> key x = Ok kx -> kx < kb) /\
  (forall x kx, In x l2 -> key x = Ok kx -> kx <= kb).

Lemma max_by_loop rest l1 b kb l2 :
  first_max l1 b kb l2 ->
  (forall x, In x rest -> exists kx, key x = Ok kx) ->
  exists l1' b' kb' l2',
    foldR step rest (b, kb) = Ok (b', kb') /\
    l1 ++ b :: l2 ++ rest = l1' ++ b' :: l2' /\
    first_max l1' b' kb' l2'.
Proof.
  revert l1 b kb l2. induction rest as [|y rest IH]; intros l1 b kb l2 Hinv Hk.
  - exists l1, b, kb, l2. rewrite app_nil_r.
    split; [reflexivity|]. split; [reflexivity|assumption].
  - destruct (Hk y) as (ky & Hy); [now left|].
    cbn [foldR]. unfold step at 1. rewrite Hy. cbn [bindR snd].
    destruct Hinv as (Hb & H1 & H2).
    destruct (ky >? kb) eqn:E.
    + apply Z.gtb_lt in E.
      destruct (IH (l1 ++ b :: l2) y ky []) as (l1' & b' & kb' & l2' & Hf & Hl & Hinv').
      * split; [assumption|]. split; [|contradiction].
        intros x kx Hx Hkx. apply in_app_or in Hx.
        destruct Hx as [Hx|[<-|Hx]].
        -- specialize (H1 x kx Hx Hkx). lia.
        -- rewrite Hb in Hkx. injection Hkx as <-. lia.
        -- specialize (H2 x kx Hx Hkx). lia.
      * intros x Hx. apply Hk. now right.
      * exists l1', b', kb', l2'. split; [assumption|]. split; [|assumption].
        rewrite <- Hl. rewrite <- !app_assoc. reflexivity.
    + assert (ky <= kb) by (destruct (Z.gtb_spec ky kb); [discriminate|lia]).
      destruct (IH l1 b kb (l2 ++ [y])) as (l1' & b' & kb' & l2' & Hf & Hl & Hinv').
      * split; [assumption|]. split; [assumption|].
        intros x kx Hx Hkx. apply in_app_or in Hx.
        destruct Hx as [Hx|[<-|[]]]; [eauto|].
        rewrite Hy in Hkx. injection Hkx as <-. lia.
      * intros x Hx. apply Hk. now right.
      * exists l1', b', kb', l2'. split; [assumption|]. split; [|assumption].
        rewrite <- Hl. rewrite <- !app_assoc. reflexivity.
Qed.

Lemma max_by_spec l :
  l <> [] ->
  (forall x, In x l -> exists kx, key x = Ok kx) ->
  exists l1 b kb l2,
    max_by key l = Ok b /\ l = l1 ++ b :: l2 /\
    key b = Ok kb /\
    (forall x kx, In x l1 -> key x = Ok kx -> kx < kb) /\
    (forall x kx, In x l2 -> key x = Ok kx -> kx <= kb).
Proof.
  intros Hne Hk. destruct l as [|x l]; [contradiction|].
  destruct (Hk x) as (kx & Hx); [now left|].
  destruct (max_by_loop l [] x kx []) as (l1 & b & kb & l2 & Hf & Hl & Hb & H1 & H2).
  - split; [assumption|]. split; contradiction.
  - intros y Hy. apply Hk. now right.
  - exists l1, b, kb, l2. unfold max_by. rewrite Hx. cbn [bindR].
    fold step. rewrite Hf. cbn. repeat split; assumption.
Qed.

End MaxBy.

Section ResultFacts.

Variable cfg : config.
Hypothesis Hrun : runnable cfg.

Lemma population_ok_nonempty population :
  population_ok cfg population -> population <> [].
Proof.
  destruct Hrun as (_ & _ & _ & HN & _). intros [Hsize _] ->.
  unfold len in Hsize. cbn in Hsize. lia.
Qed.

Lemma population_ok_fitness population c :
  population_ok cfg population -> In c population ->
  exists z, fitness_function cfg c = Ok z.
Proof.
  intros [_ Hwf] Hc. rewrite Forall_forall in Hwf.
  apply (well_formed_fitness cfg Hrun). auto.
Qed.

Lemma population_ok_best_score population :
  population_ok cfg population -> exists b, best_score cfg population = Ok b.
Proof.
  intros Hok. apply best_score_total.
  - now apply population_ok_nonempty.
  - intros c. now apply population_ok_fitness.
Qed.

(** One generation does not lower the best score. *)
Lemma best_score_step population gen r new_pop r' b b' :
  population_ok cfg population ->
  generation cfg population gen r = Ok (new_pop, r') ->
  best_score cfg population = Ok b ->
  best_score cfg new_pop = Ok b' ->
  b <= b'.
Proof.
  intros Hok Hgen Hb Hb'.
  destruct (generation_spec cfg Hrun population gen r Hok)
    as (p & r0 & elite & s & Hgen' & _ & Hhd & Hin & Hfit & Hmax).
  rewrite Hgen in Hgen'. injection Hgen' as <- <-.
  destruct (best_score_spec cfg population b Hb) as [(c & Hc & Hcb) _].
  destruct (best_score_spec cfg new_pop b' Hb') as [_ Hub'].
  specialize (Hmax c b Hc Hcb).
  assert (In elite new_pop).
  { destruct new_pop; [discriminate|]. cbn in Hhd. injection Hhd as ->.
    now left. }
  specialize (Hub' elite s H Hfit). lia.
Qed.

(** The best score after [n] more generations is at least the best
    score now. *)
Lemma best_score_chain g r n :
  0 <= g ->
  exists population r1 later r2 b b',
    population_at cfg g r = Ok (population, r1) /\
    population_at cfg (g + Z.of_nat n) r = Ok (later, r2) /\
    population_ok cfg later /\
    best_score cfg population = Ok b /\
    best_score cfg later = Ok b' /\
    b <= b'.
Proof.
  intros Hg. induction n as [|n IH].
  - destruct (population_at_ok cfg Hrun g r) as (pop & r1 & Hpop & Hok).
    destruct (population_ok_best_score pop Hok) as (b & Hb).
    exists pop, r1, pop, r1, b, b.
    rewrite Z.add_0_r. repeat split; try assumption; try apply Hok. lia.
  - destruct IH as (pop & r1 & later & r2 & b & b1 & Hpop & Hlater & Hok & Hb & Hb1 & Hle).
    destruct (generation_spec cfg Hrun later (g + Z.of_nat n) r2 Hok)
      as (next & r3 & elite & s & Hgen & Hok' & _).
    destruct (population_ok_best_score next Hok') as (b2 & Hb2).
    pose proof (best_score_step _ _ _ _ _ _ _ Hok Hgen Hb1 Hb2).
    exists pop, r1, next, r3, b, b2.
    split; [assumption|]. split.
    { replace (g + Z.of_nat (S n)) with (g + Z.of_nat n + 1) by lia.
      rewrite population_at_succ by lia. unfold bind. now rewrite Hlater. }
    split; [assumption|]. split; [assumption|]. split; [assumption|]. lia.
Qed.

(** What [genetic_algorithm] returns: the first candidate of the final
    population whose score is the greatest. *)
Lemma genetic_algorithm_result r :
  exists best r' population b l1 l2,
    genetic_algorithm cfg r = Ok (best, r') /\
    population_at cfg (NUM_GENERATIONS cfg) r = Ok (population, r') /\
    population_ok cfg population /\
    population = l1 ++ best :: l2 /\
    fitness_function cfg best = Ok b /\
    best_score cfg population = Ok b /\
    (forall x kx, In x l1 -> fitness_function cfg x = Ok kx -> kx < b).
Proof.
  destruct (population_at_ok cfg Hrun (NUM_GENERATIONS cfg) r)
    as (pop & r' & Hpop & Hok).
  destruct (max_by_spec (fitness_function cfg) pop)
    as (l1 & best & b & l2 & Hmax & Hsplit & Hb & H1 & H2).
  { now apply population_ok_nonempty. }
  { intros c. now apply population_ok_fitness. }
  destruct (population_ok_best_score pop Hok) as (b0 & Hb0).
  destruct (best_score_spec cfg pop b0 Hb0) as [(c & Hc & Hcb) Hub].
  assert (Hin : In best pop) by (rewrite Hsplit; apply in_elt).
  assert (b0 = b).
  { specialize (Hub best b Hin Hb).
    rewrite Hsplit in Hc. apply in_app_or in Hc.
    destruct Hc as [Hc|[<-|Hc]].
    - specialize (H1 c b0 Hc Hcb). lia.
    - rewrite Hb in Hcb. now injection Hcb.
    - specialize (H2 c b0 Hc Hcb). lia. }
  subst b0.
  exists best, r', pop, b, l1, l2.
  split; [|split; [assumption|]; split; [assumption|]; split; [assumption|];
           split; [assumption|]; split; assumption].
  unfold genetic_algorithm. unfold population_at in Hpop. unfold bind in *.
  destruct (initial_population cfg r) as [[p0 r0]|e]; [|discriminate].
  rewrite Hpop. unfold lift. now rewrite Hmax.
Qed.

End ResultFacts.

(** X4. On a runnable configuration [genetic_algorithm] returns, for
    every random source, a member of the final population of
    [MELODY_LENGTH] in-bounds positions whose score is the best score of
    that population; among the candidates of that score it is the first
    in population order. *)
Theorem returned_melody_is_the_best (cfg : config) (r : rng) :
  runnable cfg ->
  exists best r' population b l1 l2,
    genetic_algorithm cfg r = Ok (best, r') /\
    population_at cfg (NUM_GENERATIONS cfg) r = Ok (population, r') /\
    population = l1 ++ best :: l2 /\
    well_formed cfg best /\
    fitness_function cfg best = Ok b /\
    best_score cfg population = Ok b /\
    (forall x kx, In x l1 -> fitness_function cfg x = Ok kx -> kx < b).
Proof.
  intros Hrun.
  destruct (genetic_algorithm_result cfg Hrun r)
    as (best & r' & pop & b & l1 & l2 & Hga & Hpop & Hok & Hsplit & Hb & Hbs & H1).
  assert (Hbest : well_formed cfg best).
  { destruct Hok as [_ Hwf]. rewrite Forall_forall in Hwf.
    apply Hwf. rewrite Hsplit. apply in_elt. }
  exists best, r', pop, b, l1, l2.
  split; [assumption|]. split; [assumption|]. split; [assumption|].
  split; [assumption|]. split; [assumption|]. split; assumption.
Qed.

Lemma returned_melody_is_the_best_witness :
  exists best r' population b l1 l2,
    genetic_algorithm GTG counting = Ok (best, r') /\
    population_at GTG (NUM_GENERATIONS GTG) counting = Ok (population, r') /\
    population = l1 ++ best :: l2 /\
    well_formed GTG best /\
    fitness_function GTG best = Ok b /\
    best_score GTG population = Ok b /\
    (forall x kx, In x l1 -> fitness_function GTG x = Ok kx -> kx < b).
Proof.
  apply (returned_melody_is_the_best GTG counting). solve_runnable.
Defined.

(** X5. On a runnable configuration the score of the melody that
    [genetic_algorithm] returns is at least the best score of the
    population of every generation, the random first one included. *)
Theorem result_at_least_every_generation (cfg : config) (g : Z) (r : rng) :
  runnable cfg ->
  0 <= g <= NUM_GENERATIONS cfg ->
  exists best r' s population rg b,
    genetic_algorithm cfg r = Ok (best, r') /\
    fitness_function cfg best = Ok s /\
    population_at cfg g r = Ok (population, rg) /\
    best_score cfg population = Ok b /\
    b <= s.
Proof.
  intros Hrun Hg.
  destruct (genetic_algorithm_result cfg Hrun r)
    as (best & r' & final & s & l1 & l2 & Hga & Hfinal & _ & _ & Hs & Hbs & _).
  destruct (best_score_chain cfg Hrun g r (Z.to_nat (NUM_GENERATIONS cfg - g)))
    as (pop & r1 & later & r2 & b & b' & Hpop & Hlater & _ & Hb & Hb' & Hle);
    [lia|].
  replace (g + Z.of_nat (Z.to_nat (NUM_GENERATIONS cfg - g)))
    with (NUM_GENERATIONS cfg) in Hlater by lia.
  rewrite Hfinal in Hlater. injection Hlater as <- <-.
  rewrite Hbs in Hb'. injection Hb' as <-.
  exists best, r', s, pop, r1, b. repeat split; assumption.
Qed.

Lemma result_at_least_every_generation_witness :
  exists best r' s population rg b,
    genetic_algorithm GTG zeros = Ok (best, r') /\
    fitness_function GTG best = Ok s /\
    population_at GTG 0 zeros = Ok (population, rg) /\
    best_score GTG population = Ok b /\
    b <= s.
Proof.
  apply (result_at_least_every_generation GTG 0 zeros).
  - solve_runnable.
  - cbn. lia.
Defined.

(** X6. On a runnable configuration every gene of every candidate of
    every generation lies within the configured bounds: string index in
    [0, NUM_STRINGS - 1] and fret in [0, MAX_FRET]. *)
Theorem genes_stay_in_bounds (cfg : config) (g : Z) (r : rng) :
  runnable cfg ->
  exists population r',
    population_at cfg g r = Ok (population, r') /\
    Forall (Forall (in_bounds cfg)) population.
Proof.
  intros Hrun.
  destruct (population_at_ok cfg Hrun g r) as (pop & r' & Hpop & _ & Hwf).
  exists pop, r'. split; [assumption|].
  eapply Forall_impl; [|exact Hwf]. now intros c [_ Hc].
Qed.

Lemma genes_stay_in_bounds_witness :
  exists population r',
    population_at GTG 200 counting = Ok (population, r') /\
    Forall (Forall (in_bounds GTG)) population.
Proof.
  apply (genes_stay_in_bounds GTG 200 counting). solve_runnable.
Defined.

(* ----------------------------------------------------------------- *)
(** *** Edge configurations *)

Section EdgeFacts.

Variable cfg : config.

Lemma initial_population_in_bounds r :
  1 <= NUM_STRINGS cfg -> 0 <= MAX_FRET cfg ->
  exists population r1,
    initial_population cfg r = Ok (population, r1) /\
    length population = Z.to_nat (POPULATION_SIZE cfg) /\
    Forall (fun c : melody => length c = Z.to_nat (MELODY_LENGTH cfg) /\
                              Forall (in_bounds cfg) c) population.
Proof.
  intros Hs Hf. unfold initial_population.
  apply replicateM_spec. intros g.
  destruct (generate_individual_well_formed cfg g Hs Hf) as (c & g' & Hc & H).
  eauto.
Qed.

Lemma replicateM_raise {A} (m : M A) n r e :
  m r = Raise e -> replicateM (S n) m r = Raise e.
Proof. intros H. cbn. unfold bind. now rewrite H. Qed.

Lemma generate_random_gene_raise r :
  NUM_STRINGS cfg < 1 \/ MAX_FRET cfg < 0 ->
  generate_random_gene cfg r = Raise ValueError.
Proof.
  intros Hbad. unfold generate_random_gene, bind.
  destruct (Z.ltb_spec (NUM_STRINGS cfg) 1) as [Hs|Hs].
  - now rewrite randint_empty by lia.
  - destruct (randint_in_range 0 (NUM_STRINGS cfg - 1) r) as (s & -> & _);
      [lia|].
    rewrite randint_empty by lia. reflexivity.
Qed.

Lemma slice_to_zero {A} (l : list A) : slice_to l 0 = [].
Proof.
  unfold slice_to, clip. pose proof (len_nonneg l).
  replace (Z.to_nat _) with O by (cbn; lia). reflexivity.
Qed.

Lemma pool_of_tiny :
  1 <= POPULATION_SIZE cfg <= 3 -> breeding_pool_size cfg = Ok 0.
Proof.
  intros H. unfold breeding_pool_size.
  assert (E : POPULATION_SIZE cfg = 1 \/ POPULATION_SIZE cfg = 2
              \/ POPULATION_SIZE cfg = 3) by lia.
  destruct E as [->|[->| ->]]; reflexivity.
Qed.

End EdgeFacts.

(** X7. With a generation budget of zero or less the loop does not run:
    provided there is at least one candidate of at least one note and
    the strings and frets can be drawn and read, [genetic_algorithm]
    returns a candidate of the random first population whose score no
    other member exceeds.  One-note melodies are accepted here. *)
Theorem no_generation_returns_initial_best (cfg : config) (r : rng) :
  NUM_GENERATIONS cfg <= 0 ->
  1 <= NUM_STRINGS cfg <= len (TUNING cfg) ->
  0 <= MAX_FRET cfg ->
  1 <= MELODY_LENGTH cfg ->
  1 <= POPULATION_SIZE cfg ->
  exists population r1 best b,
    initial_population cfg r = Ok (population, r1) /\
    genetic_algorithm cfg r = Ok (best, r1) /\
    In best population /\
    fitness_function cfg best = Ok b /\
    (forall c z, In c population -> fitness_function cfg c = Ok z -> z <= b).
Proof.
  intros HG HS HF HL HN.
  destruct (initial_population_in_bounds cfg r) as (pop & r1 & Hinit & Hlen & Hwf);
    [lia|lia|].
  rewrite Forall_forall in Hwf.
  destruct (max_by_spec (fitness_function cfg) pop)
    as (l1 & best & b & l2 & Hmax & Hsplit & Hb & H1 & H2).
  { intros ->. cbn in Hlen. lia. }
  { intros c Hc. destruct (Hwf c Hc) as [Hc1 Hc2].
    apply fitness_total; [lia| |assumption].
    intros ->. cbn in Hc1. lia. }
  exists pop, r1, best, b. split; [assumption|]. split.
  { unfold genetic_algorithm, bind, evolve. rewrite Hinit.
    unfold range. replace (Z.to_nat (NUM_GENERATIONS cfg)) with O by lia.
    cbn. unfold lift. now rewrite Hmax. }
  split; [rewrite Hsplit; apply in_elt|]. split; [assumption|].
  intros c z Hc Hz. rewrite Hsplit in Hc. apply in_app_or in Hc.
  destruct Hc as [Hc|[<-|Hc]].
  - specialize (H1 c z Hc Hz). lia.
  - rewrite Hb in Hz. injection Hz as <-. lia.
  - now apply (H2 c z).
Qed.

Lemma no_generation_returns_initial_best_witness :
  exists population r1 best b,
    initial_population no_generation counting = Ok (population, r1) /\
    genetic_algorithm no_generation counting = Ok (best, r1) /\
    In best population /\
    fitness_function no_generation best = Ok b /\
    (forall c z, In c population ->
                 fitness_function no_generation c = Ok z -> z <= b).
Proof.
  apply (no_generation_returns_initial_best no_generation counting);
    try (unfold len; cbn; lia).
Defined.

(** X8. A population of one, two or three candidates cannot breed:
    [int(POPULATION_SIZE * 0.3)] is zero, the breeding pool is empty and
    [top_performers[0]] raises [IndexError] in the first generation,
    whatever the random source. *)
Theorem tiny_population_raises (cfg : config) (r : rng) :
  1 <= POPULATION_SIZE cfg <= 3 ->
  1 <= NUM_GENERATIONS cfg ->
  1 <= MELODY_LENGTH cfg ->
  1 <= NUM_STRINGS cfg <= len (TUNING cfg) ->
  0 <= MAX_FRET cfg ->
  breeding_pool_size cfg = Ok 0 /\
  exists population r1,
    initial_population cfg r = Ok (population, r1) /\
    generation cfg population 0 r1 = Raise IndexError /\
    genetic_algorithm cfg r = Raise IndexError.
Proof.
  intros HN HG HL HS HF.
  pose proof (pool_of_tiny cfg HN) as Hpool. split; [assumption|].
  destruct (initial_population_in_bounds cfg r) as (pop & r1 & Hinit & Hlen & Hwf);
    [lia|lia|].
  rewrite Forall_forall in Hwf.
  assert (Hgen : generation cfg pop 0 r1 = Raise IndexError).
  { destruct (evaluate_total cfg pop) as (scored & Hev).
    { intros c Hc. destruct (Hwf c Hc) as [Hc1 Hc2].
      apply fitness_total; [lia| |assumption].
      intros ->. cbn in Hc1. lia. }
    assert (Hne : scored <> []).
    { intros ->. apply evaluate_fst in Hev. subst pop. cbn in Hlen. lia. }
    destruct (sort_desc_head snd scored Hne) as (b & Hhd & _).
    unfold generation, bind, lift. rewrite Hev.
    change (0 mod 50 =? 0) with true. cbv iota.
    rewrite (getitem_head _ _ Hhd). cbn [bindR].
    rewrite Hpool, slice_to_zero. reflexivity. }
  exists pop, r1. split; [assumption|]. split; [assumption|].
  unfold genetic_algorithm, bind, evolve. rewrite Hinit. unfold range.
  destruct (Z.to_nat (NUM_GENERATIONS cfg)) as [|n] eqn:E; [lia|].
  cbn [seq map foldM Z.of_nat]. unfold bind. now rewrite Hgen.
Qed.

Lemma tiny_population_raises_witness :
  breeding_pool_size trio = Ok 0 /\
  exists population r1,
    initial_population trio counting = Ok (population, r1) /\
    generation trio population 0 r1 = Raise IndexError /\
    genetic_algorithm trio counting = Raise IndexError.
Proof.
  apply (tiny_population_raises trio counting); unfold len; cbn; lia.
Defined.

(** X9. With at least one string and a non-negative fret ceiling,
    [generate_individual] returns exactly [MELODY_LENGTH] genes, none
    for a length of zero or less, each with its string index in
    [0, NUM_STRINGS - 1] and its fret in [0, MAX_FRET]. *)
Theorem generate_individual_shape (cfg : config) (r : rng) :
  1 <= NUM_STRINGS cfg ->
  0 <= MAX_FRET cfg ->
  exists c r',
    generate_individual cfg r = Ok (c, r') /\
    len c = Z.max 0 (MELODY_LENGTH cfg) /\
    Forall (in_bounds cfg) c.
Proof.
  intros HS HF.
  destruct (generate_individual_well_formed cfg r HS HF)
    as (c & r' & Hc & Hlen & Hb).
  exists c, r'. split; [assumption|]. split; [unfold len; lia|assumption].
Qed.

Lemma generate_individual_shape_witness :
  exists c r',
    generate_individual GTG counting = Ok (c, r') /\
    len c = Z.max 0 (MELODY_LENGTH GTG) /\
    Forall (in_bounds GTG) c.
Proof.
  apply (generate_individual_shape GTG counting); cbn; lia.
Defined.

(** X10. Without a string to draw, or with a negative fret ceiling, the
    first call of [generate_random_gene] raises [ValueError]: when a
    candidate of at least one note is asked for, the run stops there,
    while the first population is being built. *)
Theorem undrawable_gene_raises (cfg : config) (r : rng) :
  NUM_STRINGS cfg < 1 \/ MAX_FRET cfg < 0 ->
  1 <= MELODY_LENGTH cfg ->
  1 <= POPULATION_SIZE cfg ->
  generate_random_gene cfg r = Raise ValueError /\
  initial_population cfg r = Raise ValueError /\
  genetic_algorithm cfg r = Raise ValueError.
Proof.
  intros Hbad HL HN.
  pose proof (generate_random_gene_raise cfg r Hbad) as Hgene.
  assert (Hind : generate_individual cfg r = Raise ValueError).
  { unfold generate_individual.
    destruct (Z.to_nat (MELODY_LENGTH cfg)) as [|n] eqn:E; [lia|].
    now apply replicateM_raise. }
  assert (Hinit : initial_population cfg r = Raise ValueError).
  { unfold initial_population.
    destruct (Z.to_nat (POPULATION_SIZE cfg)) as [|n] eqn:E; [lia|].
    now apply replicateM_raise. }
  split; [assumption|]. split; [assumption|].
  unfold genetic_algorithm, bind. now rewrite Hinit.
Qed.

Lemma undrawable_gene_raises_witness :
  generate_random_gene no_string zeros = Raise ValueError /\
  initial_population no_string zeros = Raise ValueError /\
  genetic_algorithm no_string zeros = Raise ValueError.
Proof.
  apply (undrawable_gene_raises no_string zeros).
  - left. cbn. lia.
  - cbn. lia.
  - cbn. lia.
Defined.

(* ----------------------------------------------------------------- *)
(** *** Crossover, mutation and breeding *)

Lemma recombine_same (p : melody) k : recombine p p k = p.
Proof. unfold recombine, slice_to, slice_from. apply firstn_skipn. Qed.

Lemma recombine_length_any (p1 p2 : melody) k :
  0 <= k <= len p1 -> len (recombine p1 p2 k) = Z.max k (len p2).
Proof.
  intros Hk. unfold recombine, slice_to, slice_from.
  rewrite clip_in_range by lia.
  rewrite len_app. unfold len at 1 2.
  rewrite length_firstn, length_skipn. unfold clip.
  replace (k <? 0) with false by (symmetry; apply Z.ltb_ge; lia).
  unfold len in *. lia.
Qed.

(** A draw of [random.random()] is never below zero. *)
Lemma random_not_below_zero k s :
  0 <= k -> flt (binary_normalize prec emax k (-53) false) (S754_zero s) = false.
Proof.
  intros Hk. destruct k as [|p|p]; [reflexivity| |lia].
  unfold binary_normalize, binary_round.
  destruct (shl_align _ _ _) as [mz ez].
  unfold binary_round_aux.
  destruct (shr_fexp _ _ _ _ _) as [mrs' e'].
  destruct (shr_fexp _ _ _ _ _) as [mrs'' e''].
  destruct (shr_m mrs''); [reflexivity| |reflexivity].
  now destruct (e'' <=? emax - prec).
Qed.

(** X11. A candidate crossed with itself is returned as it is, wherever
    the split falls. *)
Theorem crossover_same_parent (p : melody) (r : rng) :
  2 <= len p -> crossover p p r = Ok (p, advance r).
Proof.
  intros Hp. destruct (crossover_split p p r Hp) as (k & -> & _).
  now rewrite recombine_same.
Qed.

Lemma crossover_same_parent_witness :
  crossover [(0, 3); (1, 5); (2, 7)] [(0, 3); (1, 5); (2, 7)] counting
  = Ok ([(0, 3); (1, 5); (2, 7)], advance counting).
Proof.
  apply (crossover_same_parent [(0, 3); (1, 5); (2, 7)] counting).
  unfold len. cbn. lia.
Defined.

(** X12. [crossover] does not compare the lengths of its parents: the
    split is drawn from the first parent alone, and the child is as long
    as the second parent, or as long as the split when the second parent
    is shorter than that. *)
Theorem crossover_length_follows_second_parent (p1 p2 : melody) (r : rng) :
  2 <= len p1 ->
  exists split,
    crossover p1 p2 r = Ok (recombine p1 p2 split, advance r) /\
    1 <= split <= len p1 - 1 /\
    len (recombine p1 p2 split) = Z.max split (len p2).
Proof.
  intros Hp. destruct (crossover_split p1 p2 r Hp) as (k & Hc & Hk).
  exists k. split; [assumption|]. split; [assumption|].
  apply recombine_length_any. lia.
Qed.

Lemma crossover_length_follows_second_parent_witness :
  exists split,
    crossover [(0, 1); (1, 2); (2, 3)] [(5, 5)] zeros
    = Ok (recombine [(0, 1); (1, 2); (2, 3)] [(5, 5)] split, advance zeros) /\
    1 <= split <= len [(0, 1); (1, 2); (2, 3)] - 1 /\
    len (recombine [(0, 1); (1, 2); (2, 3)] [(5, 5)] split)
    = Z.max split (len [(5, 5)]).
Proof.
  apply (crossover_length_follows_second_parent
           [(0, 1); (1, 2); (2, 3)] [(5, 5)] zeros).
  unfold len. cbn. lia.
Defined.

(** X13. [crossover] raises, with [ValueError], exactly when its first
    parent has fewer than two genes; the second parent plays no part in
    that. *)
Theorem crossover_raises_iff (p1 p2 : melody) (r : rng) :
  (crossover p1 p2 r = Raise ValueError <-> len p1 < 2) /\
  (forall e, crossover p1 p2 r = Raise e -> e = ValueError).
Proof.
  destruct (Z.ltb_spec (len p1) 2) as [H|H].
  - rewrite (crossover_short p1 p2 r H). split.
    + split; [intros _; assumption|reflexivity].
    + now intros e [= <-].
  - destruct (crossover_split p1 p2 r H) as (k & -> & _). split.
    + split; [discriminate|lia].
    + discriminate.
Qed.

(** X14. With a mutation rate of zero, of either sign, [mutate] returns
    its argument, the empty candidate included, and uses one draw. *)
Theorem mutate_rate_zero_is_identity
    (cfg : config) (s : bool) (c : melody) (r : rng) :
  MUTATION_RATE cfg = S754_zero s ->
  mutate cfg c r = Ok (c, advance r).
Proof.
  intros Hrate. unfold mutate, bind, random. rewrite Hrate.
  rewrite random_not_below_zero; [reflexivity|].
  apply Z.mod_pos_bound. reflexivity.
Qed.

Lemma mutate_rate_zero_is_identity_witness :
  mutate never_mutating [(1, 2); (3, 4)] zeros
  = Ok ([(1, 2); (3, 4)], advance zeros).
Proof.
  apply (mutate_rate_zero_is_identity never_mutating false
           [(1, 2); (3, 4)] zeros).
  reflexivity.
Defined.

(** X15. On a runnable configuration a child bred from a non-empty pool
    of well-formed candidates is well formed, and differs in at most one
    position from the recombination, at a split between [1] and
    [MELODY_LENGTH - 1], of two members of the pool. *)
Theorem child_is_one_step_from_its_parents
    (cfg : config) (top : list melody) (r : rng) :
  runnable cfg ->
  top <> [] ->
  Forall (well_formed cfg) top ->
  exists parent1 parent2 split child r',
    breed cfg top r = Ok (child, r') /\
    In parent1 top /\ In parent2 top /\
    1 <= split <= MELODY_LENGTH cfg - 1 /\
    (differences (recombine parent1 parent2 split) child <= 1)%nat /\
    well_formed cfg child.
Proof.
  intros Hrun Hne Htop. pose proof Hrun as (HL & HS & HF & _).
  destruct (choice_In top r Hne) as (p1 & Hc1 & H1).
  destruct (choice_In top (advance r) Hne) as (p2 & Hc2 & H2).
  rewrite Forall_forall in Htop.
  destruct (Htop p1 H1) as [Hl1 Hb1]. destruct (Htop p2 H2) as [Hl2 Hb2].
  destruct (crossover_split p1 p2 (advance (advance r))) as (k & Hx & Hk);
    [lia|].
  assert (Hlen : len (recombine p1 p2 k) = MELODY_LENGTH cfg).
  { rewrite recombine_length; [assumption|lia|lia]. }
  assert (Hne' : recombine p1 p2 k <> []).
  { intros E. rewrite E in Hlen. unfold len in Hlen. cbn in Hlen. lia. }
  destruct (mutate_cases cfg (recombine p1 p2 k)
              (advance (advance (advance r)))) as (c & r' & Hm & Hcase);
    [lia|lia|assumption|].
  exists p1, p2, k, c, r'.
  split.
  { unfold breed, bind. now rewrite Hc1, Hc2, Hx. }
  split; [assumption|]. split; [assumption|]. split; [lia|].
  assert (Hrec : Forall (in_bounds cfg) (recombine p1 p2 k))
    by now apply recombine_Forall.
  destruct Hcase as [->|(idx & g & Hi & Hg & ->)].
  - split; [rewrite differences_refl; lia|]. now split.
  - split; [apply differences_update|]. split.
    + unfold len. rewrite length_update. exact Hlen.
    + now apply Forall_update.
Qed.

Lemma child_is_one_step_from_its_parents_witness :
  exists parent1 parent2 split child r',
    breed GTG [repeat (0, 0) 30; repeat (5, 15) 30] counting
    = Ok (child, r') /\
    In parent1 [repeat (0, 0) 30; repeat (5, 15) 30] /\
    In parent2 [repeat (0, 0) 30; repeat (5, 15) 30] /\
    1 <= split <= MELODY_LENGTH GTG - 1 /\
    (differences (recombine parent1 parent2 split) child <= 1)%nat /\
    well_formed GTG child.
Proof.
  apply (child_is_one_step_from_its_parents GTG
           [repeat (0, 0) 30; repeat (5, 15) 30] counting).
  - solve_runnable.
  - discriminate.
  - repeat constructor; cbn; lia.
Defined.

(* ----------------------------------------------------------------- *)
(** *** Reading the tuning table and scoring *)

Lemma getitem_cases {A} (l : list A) i :
  (- len l <= i < len l /\
   exists a, getitem l i = Ok a /\
             nth_error l (Z.to_nat (i mod len l)) = Some a) \/
  ((i < - len l \/ len l <= i) /\ getitem l i = Raise IndexError).
Proof.
  pose proof (len_nonneg l) as Hl. unfold getitem.
  destruct (Z.ltb_spec i 0) as [Hneg|Hpos].
  - destruct (Z.ltb_spec (i + len l) 0) as [Hlow|Hin].
    + right. split; [lia|reflexivity].
    + left. split; [lia|].
      destruct (nth_error l (Z.to_nat (i + len l))) as [a|] eqn:E.
      * exists a. split; [reflexivity|].
        replace (i mod len l) with (i + len l); [assumption|].
        apply Z.mod_unique with (q := -1); lia.
      * apply nth_error_None in E. unfold len in *. lia.
  - replace (i <? 0) with false by (symmetry; apply Z.ltb_ge; lia).
    destruct (nth_error l (Z.to_nat i)) as [a|] eqn:E.
    + left. assert (i < len l).
      { assert (Z.to_nat i < length l)%nat
          by (apply nth_error_Some; congruence).
        unfold len. lia. }
      split; [lia|]. exists a. split; [reflexivity|].
      now rewrite Z.mod_small by lia.
    + right. apply nth_error_None in E. split; [unfold len; lia|reflexivity].
Qed.

Lemma getitem_map {A B} (f : A -> B) (l : list A) i :
  getitem (map f l) i = try a <- getitem l i; Ok (f a).
Proof.
  unfold getitem, len. rewrite length_map.
  destruct ((if i <? 0 then i + Z.of_nat (length l) else i) <? 0);
    [reflexivity|].
  rewrite nth_error_map. now destruct (nth_error l _).
Qed.

Lemma getitem_nth_error {A} (l : list A) i a :
  getitem l i = Ok a ->
  exists n, nth_error l n = Some a /\
            n = Z.to_nat (if i <? 0 then i + len l else i).
Proof.
  unfold getitem.
  destruct ((if i <? 0 then i + len l else i) <? 0); [discriminate|].
  destruct (nth_error l _) as [b|] eqn:E; [|discriminate].
  intros [= <-]. eauto.
Qed.

Lemma Forall2_nth_error_rel {A B} (R : A -> B -> Prop) l l' n a b :
  Forall2 R l l' -> nth_error l n = Some a -> nth_error l' n = Some b ->
  R a b.
Proof.
  intros H. revert n. induction H as [|x y l l' Hxy _ IH]; intros [|n];
    cbn; try discriminate.
  - now intros [= <-] [= <-].
  - apply IH.
Qed.

Lemma getitem_Forall2 {A B} (R : A -> B -> Prop) l l' i a b :
  Forall2 R l l' -> getitem l i = Ok a -> getitem l' i = Ok b -> R a b.
Proof.
  intros H Ha Hb.
  apply getitem_nth_error in Ha. destruct Ha as (n & Ha & Hn).
  apply getitem_nth_error in Hb. destruct Hb as (n' & Hb & Hn').
  assert (n' = n).
  { subst n n'. unfold len. now rewrite (Forall2_length H). }
  rewrite H0 in Hb. exact (Forall2_nth_error_rel R l l' n a b H Ha Hb).
Qed.

Lemma foldR_bounds {B} (f : Z -> B -> result Z) (lo hi : Z) l a r :
  (forall s x s', In x l -> f s x = Ok s' -> s + lo <= s' <= s + hi) ->
  foldR f l a = Ok r ->
  a + lo * len l <= r <= a + hi * len l.
Proof.
  revert a. induction l as [|x l IH]; intros a Hf; cbn [foldR].
  - intros [= <-]. unfold len. cbn. lia.
  - destruct (f a x) as [s|] eqn:E; cbn [bindR]; [|discriminate].
    intros Hr. apply IH in Hr.
    + specialize (Hf a x s (or_introl eq_refl) E).
      unfold len in *. cbn [length]. nia.
    + intros s0 y s' Hy. apply Hf. now right.
Qed.

Lemma range_uncons n :
  1 <= n ->
  exists tl, range n = 0 :: tl /\ len tl = n - 1 /\
             forall i, In i tl -> 1 <= i < n.
Proof.
  intros Hn. unfold range.
  destruct (Z.to_nat n) as [|m] eqn:E; [lia|].
  exists (map Z.of_nat (seq 1 m)). cbn [seq map Z.of_nat].
  split; [reflexivity|]. split.
  - unfold len. rewrite length_map, length_seq. lia.
  - intros i Hi. apply in_map_iff in Hi. destruct Hi as (k & <- & Hk).
    apply in_seq in Hk. lia.
Qed.

Section ScoreFacts.

Variable cfg : config.

Lemma midi_of_cases g :
  (readable cfg g /\ exists m, midi_of cfg g = Ok m) \/
  (~ readable cfg g /\ midi_of cfg g = Raise IndexError).
Proof.
  unfold readable, midi_of, get_note_midi.
  destruct (getitem_cases (TUNING cfg) (fst g)) as [[Hr (o & -> & _)]|[Hr ->]].
  - left. split; [assumption|]. cbn. eauto.
  - right. split; [lia|reflexivity].
Qed.

Lemma midi_notes_cases c :
  (Forall (readable cfg) c /\ exists ms, mapR (midi_of cfg) c = Ok ms) \/
  (Exists (fun g => ~ readable cfg g) c /\
   mapR (midi_of cfg) c = Raise IndexError).
Proof.
  induction c as [|g c IH]; cbn [mapR].
  - left. split; [constructor|eauto].
  - destruct (midi_of_cases g) as [[Hg (m & ->)]|[Hg ->]]; cbn [bindR].
    + destruct IH as [[Hc (ms & ->)]|[Hc ->]]; cbn [bindR].
      * left. split; [now constructor|eauto].
      * right. split; [now right|reflexivity].
    + right. split; [now left|reflexivity].
Qed.

Lemma fitness_of_midi_notes c ms :
  mapR (midi_of cfg) c = Ok ms -> c <> [] ->
  exists s m,
    foldR (score_step cfg c ms) (range (len c)) 0 = Ok s /\
    getitem ms (-1) = Ok m /\
    fitness_function cfg c = Ok (s + resolution (m mod 12)).
Proof.
  intros Hms Hne.
  assert (Hlen : len ms = len c).
  { apply mapR_Forall2, Forall2_length in Hms. unfold len. lia. }
  unfold fitness_function. rewrite Hms. cbn [bindR].
  destruct (foldR_total (score_step cfg c ms) (range (len c)) 0) as (s & Hs).
  { intros s i Hi. apply In_range in Hi. now apply score_step_total. }
  rewrite Hs. cbn [bindR].
  destruct (exists_last Hne) as (c' & g & ->).
  destruct ms as [|m0 ms0] using rev_ind.
  { rewrite len_app in Hlen. unfold len in Hlen. cbn in Hlen. lia. }
  rewrite getitem_last. cbn. eauto.
Qed.

Lemma harmony_bounds chroma : -50 <= harmony cfg chroma <= 15.
Proof.
  unfold harmony. destruct (mem chroma (SCALE_C_MAJOR cfg)); [|lia].
  destruct ((chroma =? 0) || (chroma =? 7)); lia.
Qed.

Lemma contour_bounds pm m : 0 <= contour pm m <= 20.
Proof.
  unfold contour. destruct (Z.abs (m - pm) >? 12); [lia|].
  destruct (Z.abs (m - pm) =? 0); lia.
Qed.

Lemma technique_bounds p q :
  in_bounds cfg p -> in_bounds cfg q ->
  0 <= technique p q <= 2 * MAX_FRET cfg + 5 * (NUM_STRINGS cfg - 1).
Proof.
  destruct p as [ps pf], q as [qs qf]. unfold in_bounds, technique.
  cbn [fst snd]. intros [Hps Hpf] [Hqs Hqf]. lia.
Qed.

(** Two notes in a row always cost something: the same position is a
    repeated pitch, another position is a move of the hand. *)
Lemma pair_cost p q mp mq :
  midi_of cfg p = Ok mp -> midi_of cfg q = Ok mq ->
  2 <= technique p q + contour mp mq.
Proof.
  destruct p as [ps pf], q as [qs qf]. intros Hp Hq.
  pose proof (contour_bounds mp mq) as Hc.
  destruct (Z.eq_dec ps qs) as [Es|Es], (Z.eq_dec pf qf) as [Ef|Ef];
    try (unfold technique; lia).
  subst. rewrite Hp in Hq. injection Hq as <-.
  unfold technique, contour. rewrite !Z.sub_diag. cbn. lia.
Qed.

Lemma score_step_first c ms s s' :
  score_step cfg c ms s 0 = Ok s' -> s - 50 <= s' <= s + 15.
Proof.
  unfold score_step.
  destruct (getitem ms 0) as [m|]; cbn [bindR]; [|discriminate].
  destruct (getitem c 0) as [g|]; cbn [bindR]; [|discriminate].
  cbn. intros [= <-]. pose proof (harmony_bounds (m mod 12)). lia.
Qed.

Lemma score_step_next c ms s i s' :
  Forall (in_bounds cfg) c ->
  mapR (midi_of cfg) c = Ok ms ->
  1 <= i ->
  score_step cfg c ms s i = Ok s' ->
  s - 70 - (2 * MAX_FRET cfg + 5 * (NUM_STRINGS cfg - 1)) <= s' <= s + 13.
Proof.
  intros Hc Hms Hi. apply mapR_Forall2 in Hms. unfold score_step.
  destruct (getitem ms i) as [m|] eqn:Em; cbn [bindR]; [|discriminate].
  destruct (getitem c i) as [cur|] eqn:Ec; cbn [bindR]; [|discriminate].
  replace (i >? 0) with true by (symmetry; apply Z.gtb_lt; lia).
  destruct (getitem c (i - 1)) as [prev|] eqn:Ep; cbn [bindR]; [|discriminate].
  destruct (getitem ms (i - 1)) as [pm|] eqn:Epm; cbn [bindR]; [|discriminate].
  intros [= <-].
  pose proof (harmony_bounds (m mod 12)).
  pose proof (contour_bounds pm m).
  rewrite Forall_forall in Hc.
  pose proof (technique_bounds prev cur (Hc _ (getitem_In _ _ _ Ep))
                (Hc _ (getitem_In _ _ _ Ec))).
  pose proof (pair_cost prev cur pm m
                (getitem_Forall2 _ _ _ _ _ _ Hms Ep Epm)
                (getitem_Forall2 _ _ _ _ _ _ Hms Ec Em)).
  lia.
Qed.

Lemma midi_of_transpose k g :
  midi_of cfg (transpose k g) = try m <- midi_of cfg g; Ok (m + 12 * k).
Proof.
  unfold midi_of, get_note_midi, transpose. cbn [fst snd].
  destruct (getitem (TUNING cfg) (fst g)); cbn; [|reflexivity].
  f_equal. lia.
Qed.

Lemma midi_notes_transpose k c :
  mapR (midi_of cfg) (map (transpose k) c) =
  try ms <- mapR (midi_of cfg) c; Ok (map (fun m => m + 12 * k) ms).
Proof.
  induction c as [|g c IH]; [reflexivity|].
  cbn [map mapR]. rewrite midi_of_transpose, IH.
  destruct (midi_of cfg g); cbn [bindR]; [|reflexivity].
  now destruct (mapR (midi_of cfg) c).
Qed.

Lemma chroma_transpose k m : (m + 12 * k) mod 12 = m mod 12.
Proof. rewrite (Z.mul_comm 12 k). apply Z_mod_plus_full. Qed.

Lemma technique_transpose k p q :
  technique (transpose k p) (transpose k q) = technique p q.
Proof.
  destruct p as [ps pf], q as [qs qf]. unfold technique, transpose.
  cbn [fst snd].
  now replace (qf + 12 * k - (pf + 12 * k)) with (qf - pf) by lia.
Qed.

Lemma contour_transpose k pm m :
  contour (pm + 12 * k) (m + 12 * k) = contour pm m.
Proof.
  unfold contour.
  now replace (m + 12 * k - (pm + 12 * k)) with (m - pm) by lia.
Qed.

Lemma score_step_transpose k c ms s i :
  score_step cfg (map (transpose k) c) (map (fun m => m + 12 * k) ms) s i =
  score_step cfg c ms s i.
Proof.
  unfold score_step. rewrite !getitem_map.
  destruct (getitem ms i) as [m|]; cbn [bindR]; [|reflexivity].
  destruct (getitem c i) as [cur|]; cbn [bindR]; [|reflexivity].
  rewrite chroma_transpose.
  destruct (i >? 0); [|reflexivity].
  destruct (getitem c (i - 1)) as [prev|]; cbn [bindR]; [|reflexivity].
  destruct (getitem ms (i - 1)) as [pm|]; cbn [bindR]; [|reflexivity].
  now rewrite technique_transpose, contour_transpose.
Qed.

End ScoreFacts.

(** X16. [get_note_midi] adds the fret to the open-string pitch read at
    the string index, a negative index down to [-len(TUNING)] counting
    from the end of the table; for any other index it raises
    [IndexError]. *)
Theorem get_note_midi_reads_tuning (cfg : config) (string_idx fret : Z) :
  (- len (TUNING cfg) <= string_idx < len (TUNING cfg) /\
   exists open,
     nth_error (TUNING cfg) (Z.to_nat (string_idx mod len (TUNING cfg)))
     = Some open /\
     get_note_midi cfg string_idx fret = Ok (open + fret)) \/
  ((string_idx < - len (TUNING cfg) \/ len (TUNING cfg) <= string_idx) /\
   get_note_midi cfg string_idx fret = Raise IndexError).
Proof.
  unfold get_note_midi.
  destruct (getitem_cases (TUNING cfg) string_idx)
    as [[Hr (o & -> & Hn)]|[Hr ->]].
  - left. split; [assumption|]. exists o. now split.
  - right. now split.
Qed.

(** X17. [fitness_function] returns a score for every non-empty
    candidate whose string indices the tuning table can be read at,
    whatever its frets; for the empty candidate and for a candidate with
    an unreadable string index it raises [IndexError], and it raises
    nothing else. *)
Theorem fitness_raises_iff (cfg : config) (c : melody) :
  (c <> [] /\ Forall (readable cfg) c /\
   exists z, fitness_function cfg c = Ok z) \/
  ((c = [] \/ Exists (fun g => ~ readable cfg g) c) /\
   fitness_function cfg c = Raise IndexError).
Proof.
  destruct c as [|g c].
  - right. split; [now left|reflexivity].
  - destruct (midi_notes_cases cfg (g :: c)) as [[Hc (ms & Hms)]|[Hc Hms]].
    + left. split; [discriminate|]. split; [assumption|].
      destruct (fitness_of_midi_notes cfg (g :: c) ms Hms)
        as (s & m & _ & _ & Hf); [discriminate|]. eauto.
    + right. split; [now right|].
      unfold fitness_function. now rewrite Hms.
Qed.

(** X18. The score of a candidate of [n >= 1] in-bounds positions lies
    between [-50 n - (n - 1) (2 MAX_FRET + 5 (NUM_STRINGS - 1) + 20)]
    and [13 n + 32]: a note earns at most 15, two notes in a row always
    cost at least 2, and the final bonus is 30. *)
Theorem fitness_bounds (cfg : config) (c : melody) :
  NUM_STRINGS cfg <= len (TUNING cfg) ->
  1 <= len c ->
  Forall (in_bounds cfg) c ->
  exists z,
    fitness_function cfg c = Ok z /\
    - 50 * len c
    - (len c - 1) * (2 * MAX_FRET cfg + 5 * (NUM_STRINGS cfg - 1) + 20)
    <= z <= 13 * len c + 32.
Proof.
  intros Ht Hlen Hc.
  destruct (midi_notes_in_bounds cfg c Ht Hc) as (ms & Hms).
  destruct (fitness_of_midi_notes cfg c ms Hms) as (s & m & Hs & _ & Hz).
  { intros ->. unfold len in Hlen. cbn in Hlen. lia. }
  exists (s + resolution (m mod 12)). split; [assumption|].
  destruct (range_uncons (len c) Hlen) as (tl & Hr & Htl & Hin).
  rewrite Hr in Hs. cbn [foldR] in Hs.
  destruct (score_step cfg c ms 0 0) as [s0|] eqn:E0; cbn [bindR] in Hs;
    [|discriminate].
  apply score_step_first in E0.
  apply (foldR_bounds (score_step cfg c ms)
           (- 70 - (2 * MAX_FRET cfg + 5 * (NUM_STRINGS cfg - 1))) 13) in Hs.
  - rewrite Htl in Hs.
    assert (0 <= resolution (m mod 12) <= 30)
      by (unfold resolution; destruct (m mod 12 =? 0); lia).
    nia.
  - intros s1 i s' Hi Hstep. specialize (Hin i Hi).
    pose proof (score_step_next cfg c ms s1 i s' Hc Hms (proj1 Hin) Hstep).
    lia.
Qed.

Lemma fitness_bounds_witness :
  exists z,
    fitness_function GTG [(0, 0); (5, 15); (2, 10)] = Ok z /\
    - 50 * len [(0, 0); (5, 15); (2, 10)]
    - (len [(0, 0); (5, 15); (2, 10)] - 1)
      * (2 * MAX_FRET GTG + 5 * (NUM_STRINGS GTG - 1) + 20)
    <= z <= 13 * len [(0, 0); (5, 15); (2, 10)] + 32.
Proof.
  apply (fitness_bounds GTG [(0, 0); (5, 15); (2, 10)]).
  - unfold len. cbn. lia.
  - unfold len. cbn. lia.
  - repeat constructor; cbn; lia.
Defined.

(** X19. The score does not tell octaves apart: moving every note of a
    candidate by the same number of octaves along its string (twelve
    frets per octave, up or down) leaves the outcome of
    [fitness_function] unchanged, the raised exception included. *)
Theorem fitness_octave_invariant (cfg : config) (k : Z) (c : melody) :
  fitness_function cfg (map (transpose k) c) = fitness_function cfg c.
Proof.
  unfold fitness_function. rewrite midi_notes_transpose.
  destruct (mapR (midi_of cfg) c) as [ms|e]; cbn [bindR]; [|reflexivity].
  assert (Hlen : len (map (transpose k) c) = len c)
    by (unfold len; now rewrite length_map).
  rewrite Hlen.
  rewrite (foldR_ext _ (score_step cfg c ms))
    by (intros s i _; apply score_step_transpose).
  destruct (foldR (score_step cfg c ms) (range (len c)) 0) as [s|e];
    cbn [bindR]; [|reflexivity].
  rewrite getitem_map.
  destruct (getitem ms (-1)) as [m|e]; cbn [bindR]; [|reflexivity].
  now rewrite chroma_transpose.
Qed.

(* ----------------------------------------------------------------- *)
(** *** The tablature *)




Section TablatureFacts.

Variable cfg : config.

Lemma tab_note_six l0 l1 l2 l3 l4 l5 s_idx fret open :
  getitem (TUNING cfg) s_idx = Ok open ->
  tab_note cfg [l0; l1; l2; l3; l4; l5] (s_idx, fret) =
  Ok [String.append l0 (tab_cell 0 s_idx fret);
      String.append l1 (tab_cell 1 s_idx fret);
      String.append l2 (tab_cell 2 s_idx fret);
      String.append l3 (tab_cell 3 s_idx fret);
      String.append l4 (tab_cell 4 s_idx fret);
      String.append l5 (tab_cell 5 s_idx fret)].
Proof. intros H. unfold tab_note. rewrite H. reflexivity. Qed.

Lemma tab_note_unreadable lines g :
  ~ readable cfg g -> tab_note cfg lines g = Raise IndexError.
Proof.
  intros Hg. destruct g as [s f]. unfold tab_note.
  destruct (getitem_cases (TUNING cfg) s) as [[Hr _]|[_ ->]];
    [contradiction|reflexivity].
Qed.


Lemma tab_loop_cases c l0 l1 l2 l3 l4 l5 :
  (Forall (readable cfg) c /\
   exists lines, foldR (tab_note cfg) c [l0; l1; l2; l3; l4; l5] = Ok lines /\
                 length lines = 6%nat) \/
  (Exists (fun g => ~ readable cfg g) c /\
   foldR (tab_note cfg) c [l0; l1; l2; l3; l4; l5] = Raise IndexError).
Proof.
  revert l0 l1 l2 l3 l4 l5.
  induction c as [|[s f] c IH]; intros l0 l1 l2 l3 l4 l5.
  - left. split; [constructor|]. eexists. split; reflexivity.
  - cbn [foldR].
    destruct (getitem_cases (TUNING cfg) s) as [[Hr (o & Ho & _)]|[Hbad _]].
    + rewrite (tab_note_six _ _ _ _ _ _ _ _ _ Ho). cbn [bindR].
      destruct (IH (String.append l0 (tab_cell 0 s f))
                   (String.append l1 (tab_cell 1 s f))
                   (String.append l2 (tab_cell 2 s f))
                   (String.append l3 (tab_cell 3 s f))
                   (String.append l4 (tab_cell 4 s f))
                   (String.append l5 (tab_cell 5 s f)))
        as [[Hc (lines & -> & Hl)]|[Hc ->]].
      * left. split; [now constructor|]. eauto.
      * right. split; [now right|reflexivity].
    + assert (Hs : ~ readable cfg (s, f))
        by (unfold readable; cbn [fst]; lia).
      rewrite (tab_note_unreadable _ _ Hs). right.
      split; [now left|reflexivity].
Qed.

End TablatureFacts.



(** X21. Building the text of the tablature raises, with [IndexError],
    exactly for a candidate holding a string index the tuning table
    cannot be read at; the empty candidate gives the six bare labels
    (the music21 calls of the loop being taken to return). *)
Theorem tablature_raises_iff (cfg : config) (c : melody) :
  tablature cfg [] = Ok ["e|"; "B|"; "G|"; "D|"; "A|"; "E|"]%string /\
  ((Forall (readable cfg) c /\
    exists lines, tablature cfg c = Ok lines /\ length lines = 6%nat) \/
   (Exists (fun g => ~ readable cfg g) c /\
    tablature cfg c = Raise IndexError)).
Proof.
  split; [reflexivity|]. unfold tablature. apply tab_loop_cases.
Qed.

(* ----------------------------------------------------------------- *)
(** *** Scoring one more note, the pool size, the generation number *)

(** X22. Scoring composes note by note: appending a note to a scored
    melody adds the harmony of the new note, subtracts the technique and
    contour costs of the new last pair, and moves the final bonus from
    the old last note to the new one. *)
Theorem fitness_of_one_more_note
    (cfg : config) (pre : melody) (q g : gene) (mpre : list Z) (mq m : Z) :
  mapR (midi_of cfg) pre = Ok mpre ->
  midi_of cfg q = Ok mq ->
  midi_of cfg g = Ok m ->
  exists z,
    fitness_function cfg (pre ++ [q]) = Ok z /\
    fitness_function cfg (pre ++ [q; g]) =
    Ok (z - resolution (mq mod 12)
        + harmony cfg (m mod 12) - technique q g - contour mq m
        + resolution (m mod 12)).
Proof.
  intros Hpre Hq Hg.
  assert (Hlen : length mpre = length pre)
    by (apply mapR_Forall2, Forall2_length in Hpre; lia).
  assert (Hall : mapR (midi_of cfg) (pre ++ [q]) = Ok (mpre ++ [mq])).
  { apply mapR_Forall2. apply Forall2_app; [now apply mapR_Forall2|].
    constructor; [assumption|constructor]. }
  assert (Hlast : len (pre ++ [q]) - 1 = len pre)
    by (rewrite len_app; change (len [q]) with 1; lia).
  assert (Hgq : getitem (pre ++ [q]) (len (pre ++ [q]) - 1) = Ok q)
    by (rewrite Hlast; apply getitem_app2).
  assert (Hgm : getitem (mpre ++ [mq]) (len (pre ++ [q]) - 1) = Ok mq).
  { rewrite Hlast. replace (len pre) with (len mpre) by (unfold len; lia).
    apply getitem_app2. }
  destruct (fitness_of_midi_notes cfg (pre ++ [q]) (mpre ++ [mq]) Hall)
    as (s & ml & Hs & Hml & Hz).
  { now destruct pre. }
  rewrite getitem_last in Hml. injection Hml as <-.
  exists (s + resolution (mq mod 12)). split; [assumption|].
  replace (pre ++ [q; g]) with ((pre ++ [q]) ++ [g])
    by (now rewrite <- app_assoc).
  rewrite (fitness_snoc cfg _ _ q mq g m Hall Hgq Hgm Hg).
  rewrite Hs. cbn [bindR]. f_equal. lia.
Qed.

Lemma fitness_of_one_more_note_witness :
  exists z,
    fitness_function GTG ([(0, 0)] ++ [(1, 5)]) = Ok z /\
    fitness_function GTG ([(0, 0)] ++ [(1, 5); (1, 3)]) =
    Ok (z - resolution (50 mod 12)
        + harmony GTG (48 mod 12) - technique (1, 5) (1, 3) - contour 50 48
        + resolution (48 mod 12)).
Proof.
  apply (fitness_of_one_more_note GTG [(0, 0)] (1, 5) (1, 3) [40] 50 48);
    reflexivity.
Defined.

(** X23. For every population size from -1000 to 1000 the binary64
    value of [POPULATION_SIZE * 0.3] truncates to the exact quotient of
    [3 * POPULATION_SIZE] by 10, rounded toward zero: the breeding pool
    is not empty exactly from a population of four on. *)
Theorem breeding_pool_is_three_tenths (cfg : config) :
  -1000 <= POPULATION_SIZE cfg <= 1000 ->
  breeding_pool_size cfg = Ok (Z.quot (3 * POPULATION_SIZE cfg) 10) /\
  (1 <= Z.quot (3 * POPULATION_SIZE cfg) 10 <-> 4 <= POPULATION_SIZE cfg).
Proof.
  intros HN.
  assert (H : forallb
                (fun i =>
                   let n := i - 1000 in
                   match bindR (float_of_int n)
                           (fun x => int_of_float (fmul x lit_0_3)) with
                   | Ok k => (k =? Z.quot (3 * n) 10)
                             && Bool.eqb (1 <=? k) (4 <=? n)
                   | Raise _ => false
                   end)
                (range 2001) = true) by (vm_compute; reflexivity).
  rewrite forallb_forall in H.
  specialize (H (POPULATION_SIZE cfg + 1000)).
  cbv zeta in H.
  replace (POPULATION_SIZE cfg + 1000 - 1000) with (POPULATION_SIZE cfg)
    in H by lia.
  unfold breeding_pool_size.
  destruct (bindR (float_of_int (POPULATION_SIZE cfg))
              (fun x => int_of_float (fmul x lit_0_3))) as [k|e].
  - assert (Hk : (k =? Z.quot (3 * POPULATION_SIZE cfg) 10)
                 && Bool.eqb (1 <=? k) (4 <=? POPULATION_SIZE cfg) = true)
      by (apply H; apply In_range; lia).
    apply andb_prop in Hk. destruct Hk as [Hk1 Hk2].
    apply Z.eqb_eq in Hk1. subst k. split; [reflexivity|].
    apply Bool.eqb_prop in Hk2. rewrite <- !Z.leb_le. now rewrite Hk2.
  - assert (false = true) by (apply H; apply In_range; lia). discriminate.
Qed.

Lemma breeding_pool_is_three_tenths_witness :
  breeding_pool_size GTG = Ok (Z.quot (3 * POPULATION_SIZE GTG) 10) /\
  (1 <= Z.quot (3 * POPULATION_SIZE GTG) 10 <-> 4 <= POPULATION_SIZE GTG).
Proof.
  apply (breeding_pool_is_three_tenths GTG). cbn. lia.
Defined.

(** X24. The generation number is used for logging alone: on a
    non-empty population, one generation gives the same outcome, next
    population, random source or exception, whatever the number. *)
Theorem generation_number_is_irrelevant
    (cfg : config) (population : list melody) (gen gen' : Z) (r : rng) :
  population <> [] ->
  generation cfg population gen r = generation cfg population gen' r.
Proof.
  intros Hne. unfold generation, bind, lift.
  destruct (evaluate cfg population) as [scored|e] eqn:Hev; [|reflexivity].
  assert (Hs : scored <> []).
  { intros ->. apply evaluate_fst in Hev. now subst population. }
  destruct (sort_desc_head snd scored Hs) as (b & Hhd & _).
  rewrite (getitem_head _ _ Hhd). cbn [bindR].
  now destruct (gen mod 50 =? 0), (gen' mod 50 =? 0).
Qed.

Lemma generation_number_is_irrelevant_witness :
  generation GTG [[(0, 0); (1, 2)]; [(3, 4); (5, 6)]] 0 counting =
  generation GTG [[(0, 0); (1, 2)]; [(3, 4); (5, 6)]] 7 counting.
Proof.
  apply (generation_number_is_irrelevant GTG
           [[(0, 0); (1, 2)]; [(3, 4); (5, 6)]] 0 7 counting).
  discriminate.
Defined.

(* ----------------------------------------------------------------- *)
(** *** Configurations the specification calls malformed *)

Lemma getitem_raise {A} (l : list A) i e :
  getitem l i = Raise e -> e = IndexError.
Proof.
  destruct (getitem_cases l i) as [[_ (a & -> & _)]|[_ ->]];
    [discriminate|now intros [= <-]].
Qed.

Lemma mapR_raise_inv {A B} (f : A -> result B) l e :
  mapR f l = Raise e -> exists x, In x l /\ f x = Raise e.
Proof.
  induction l as [|x l IH]; cbn; [discriminate|].
  destruct (f x) as [y|e'] eqn:Ex; cbn [bindR].
  - destruct (mapR f l) as [ys|e'']; cbn [bindR]; [discriminate|].
    intros [= <-]. destruct IH as (z & Hz & Hf); [reflexivity|].
    exists z. split; [now right|assumption].
  - intros [= <-]. exists x. split; [now left|assumption].
Qed.

Lemma breeding_pool_size_raise cfg e :
  breeding_pool_size cfg = Raise e -> e = OverflowError \/ e = ValueError.
Proof.
  unfold breeding_pool_size, float_of_int.
  destruct (binary_normalize prec emax (POPULATION_SIZE cfg) 0 false);
    cbn [bindR]; try (intros [= <-]; now left);
    (destruct (fmul _ lit_0_3); cbn [int_of_float];
     intros [= <-]; auto).
Qed.

Section Unvalidated.

Variable cfg : config.
Hypothesis Hstrings : 1 <= NUM_STRINGS cfg.
Hypothesis Hfrets : 0 <= MAX_FRET cfg.

(** Building the first population checks nothing about the sizes. *)
Lemma initial_population_total r :
  exists population r1,
    initial_population cfg r = Ok (population, r1) /\
    length population = Z.to_nat (POPULATION_SIZE cfg) /\
    Forall (fun c : melody => length c = Z.to_nat (MELODY_LENGTH cfg) /\
                              Forall (in_bounds cfg) c) population.
Proof. now apply initial_population_in_bounds. Qed.

Lemma fitness_raise c e :
  fitness_function cfg c = Raise e -> e = IndexError.
Proof.
  intros H. destruct c as [|g c].
  - rewrite fitness_nil in H. now injection H.
  - destruct (midi_notes_cases cfg (g :: c)) as [[_ (ms & Hms)]|[_ Hms]].
    + destruct (fitness_of_midi_notes cfg (g :: c) ms Hms)
        as (s & m & _ & _ & Hf); [discriminate|]. congruence.
    + unfold fitness_function in H. rewrite Hms in H. now injection H.
Qed.

Lemma evaluate_raise population e :
  evaluate cfg population = Raise e -> e = IndexError.
Proof.
  intros H. apply mapR_raise_inv in H. destruct H as (c & _ & Hc).
  destruct (fitness_function cfg c) as [z|e'] eqn:E; [discriminate|].
  cbn in Hc. injection Hc as <-. now apply fitness_raise in E.
Qed.

Lemma top_performers_incl population scored k c :
  evaluate cfg population = Ok scored ->
  In c (map fst (slice_to (sort_desc snd scored) k)) ->
  In c population.
Proof.
  intros Hev Hc. apply in_map_iff in Hc. destruct Hc as (p & <- & Hp).
  apply slice_to_incl in Hp.
  apply (Permutation_in p (sort_desc_perm snd scored)) in Hp.
  now destruct (evaluate_In cfg _ _ _ Hev Hp).
Qed.

Lemma pool_of_one :
  POPULATION_SIZE cfg = 1 -> breeding_pool_size cfg = Ok 0.
Proof. intros H. unfold breeding_pool_size. rewrite H. reflexivity. Qed.

(** With melodies shorter than two notes or no candidate at all, the
    first generation raises. *)
Lemma generation_malformed population r :
  MELODY_LENGTH cfg < 2 \/ POPULATION_SIZE cfg < 1 ->
  length population = Z.to_nat (POPULATION_SIZE cfg) ->
  Forall (fun c : melody => length c = Z.to_nat (MELODY_LENGTH cfg) /\
                            Forall (in_bounds cfg) c) population ->
  exists e,
    generation cfg population 0 r = Raise e /\
    ((e = IndexError \/ e = ValueError \/
      (e = OverflowError /\ breeding_pool_size cfg = Raise OverflowError)) /\
     (POPULATION_SIZE cfg < 1 \/ MELODY_LENGTH cfg < 1 -> e = IndexError) /\
     (MELODY_LENGTH cfg = 1 -> NUM_STRINGS cfg <= len (TUNING cfg) ->
      1 <= POPULATION_SIZE cfg ->
      (breeding_pool_size cfg = Ok 0 -> e = IndexError) /\
      (forall k, breeding_pool_size cfg = Ok k -> 1 <= k ->
                 e = ValueError))).
Proof.
  intros Hbad Hsize Hwf. unfold generation, bind, lift.
  rewrite Forall_forall in Hwf.
  destruct (evaluate cfg population) as [scored|e] eqn:Hev.
  2: { exists e. split; [reflexivity|].
       pose proof (evaluate_raise _ _ Hev) as ->.
       split; [now left|]. split; [reflexivity|].
       intros HL HS HN. exfalso.
       destruct (evaluate_total cfg population) as (sc & Hsc); [|congruence].
       intros c Hc. destruct (Hwf c Hc) as [Hc1 Hc2].
       apply fitness_total; [assumption| |assumption].
       intros ->. cbn in Hc1. lia. }
  change (0 mod 50 =? 0) with true. cbv iota.
  destruct (Z.ltb_spec (POPULATION_SIZE cfg) 1) as [HN|HN].
  { destruct population; [|cbn in Hsize; lia].
    cbn in Hev. injection Hev as <-. cbn.
    exists IndexError. split; [reflexivity|].
    split; [now left|]. split; [reflexivity|]. intros _ _ HN'. lia. }
  destruct Hbad as [HL|]; [|lia].
  destruct (Z.ltb_spec (MELODY_LENGTH cfg) 1) as [HL0|HL1].
  { exfalso. destruct population as [|c pop]; [cbn in Hsize; lia|].
    destruct (Hwf c (or_introl eq_refl)) as [Hc _].
    destruct c; [|cbn in Hc; lia].
    unfold evaluate in Hev. cbn in Hev. discriminate. }
  assert (Hne : scored <> []).
  { intros ->. apply evaluate_fst in Hev. subst population.
    cbn in Hsize. lia. }
  destruct (sort_desc_head snd scored Hne) as (b & Hhd & _).
  rewrite (getitem_head _ _ Hhd). cbn [bindR].
  destruct (breeding_pool_size cfg) as [k|e] eqn:Hk.
  2: { exists e. split; [reflexivity|].
       split.
       - destruct (breeding_pool_size_raise cfg e Hk) as [->| ->]; auto.
       - split; [lia|]. intros _ _ _. split; [discriminate|].
         intros k. discriminate. }
  destruct (getitem (map fst (slice_to (sort_desc snd scored) k)) 0)
    as [elite|e] eqn:Hel.
  2: { exists e. split; [reflexivity|].
       pose proof (getitem_raise _ _ _ Hel) as ->.
       split; [now left|]. split; [reflexivity|].
       intros _ _ _. split; [reflexivity|].
       intros k' [= <-] Hk1. exfalso.
       pose proof (slice_to_head _ k b Hk1 Hhd) as H.
       destruct (slice_to (sort_desc snd scored) k); [discriminate|].
       cbn in Hel. discriminate. }
  assert (Htop : map fst (slice_to (sort_desc snd scored) k) <> []).
  { intros E. rewrite E, getitem_nil in Hel. discriminate. }
  assert (Hk0 : k <> 0).
  { intros ->. apply Htop. now rewrite slice_to_zero. }
  assert (HN2 : 2 <= POPULATION_SIZE cfg).
  { destruct (Z.eq_dec (POPULATION_SIZE cfg) 1) as [H1|]; [|lia].
    rewrite (pool_of_one H1) in Hk. injection Hk as <-. contradiction. }
  change (len [elite]) with 1.
  destruct (Z.to_nat (POPULATION_SIZE cfg - 1)) as [|todo] eqn:E; [lia|].
  cbn [fill]. unfold bind, breed, bind.
  destruct (choice_In _ r Htop) as (p1 & -> & H1).
  destruct (choice_In _ (advance r) Htop) as (p2 & -> & H2).
  rewrite crossover_short.
  - exists ValueError. split; [reflexivity|].
    split; [auto|]. split; [lia|]. intros _ _ _.
    split; [|reflexivity]. intros [= ->]. contradiction.
  - apply (top_performers_incl _ _ _ _ Hev) in H1.
    destruct (Hwf p1 H1) as [Hl _]. unfold len. lia.
Qed.

Lemma genetic_algorithm_malformed r :
  1 <= NUM_GENERATIONS cfg ->
  MELODY_LENGTH cfg < 2 \/ POPULATION_SIZE cfg < 1 ->
  exists population r1 e,
    initial_population cfg r = Ok (population, r1) /\
    generation cfg population 0 r1 = Raise e /\
    genetic_algorithm cfg r = Raise e /\
    ((e = IndexError \/ e = ValueError \/
      (e = OverflowError /\ breeding_pool_size cfg = Raise OverflowError)) /\
     (POPULATION_SIZE cfg < 1 \/ MELODY_LENGTH cfg < 1 -> e = IndexError) /\
     (MELODY_LENGTH cfg = 1 -> NUM_STRINGS cfg <= len (TUNING cfg) ->
      1 <= POPULATION_SIZE cfg ->
      (breeding_pool_size cfg = Ok 0 -> e = IndexError) /\
      (forall k, breeding_pool_size cfg = Ok k -> 1 <= k ->
                 e = ValueError))).
Proof.
  intros HG Hbad.
  destruct (initial_population_total r) as (pop & r1 & Hinit & Hsize & Hlen).
  destruct (generation_malformed pop r1 Hbad Hsize Hlen) as (e & He & Hexn).
  exists pop, r1, e. split; [assumption|]. split; [assumption|].
  split; [|assumption].
  unfold genetic_algorithm, bind, evolve. rewrite Hinit.
  unfold range.
  destruct (Z.to_nat (NUM_GENERATIONS cfg)) as [|n] eqn:E; [lia|].
  cbn [seq map foldM Z.of_nat]. unfold bind. now rewrite He.
Qed.

End Unvalidated.

(** C9, as the code behaves.  The program validates nothing at setup.
    For every configuration with at least one string and a non-negative
    fret ceiling, whatever the melody length, the population size and
    the pitch-class set, the first population is built without error.
    When such a configuration is runnable, with an empty pitch-class set
    or not, the whole run returns a candidate.  When its melody length
    is below two or its population size below one and at least one
    generation is requested, the run raises in the first generation of
    the loop, after the first population was built.  The exception is
    [IndexError], [ValueError], or the [OverflowError] of
    [int(POPULATION_SIZE * 0.3)]; it is [IndexError] for a population
    size below one or a melody length below one; for a melody length of
    one, a tuning table covering the strings and a population of at
    least one, it is [IndexError] when [int(POPULATION_SIZE * 0.3)] is
    0 and [ValueError] when it is at least 1. *)
Theorem no_configuration_check (cfg : config) (r : rng) :
  1 <= NUM_STRINGS cfg ->
  0 <= MAX_FRET cfg ->
  (exists population r1, initial_population cfg r = Ok (population, r1)) /\
  (runnable cfg ->
   exists best r', genetic_algorithm cfg r = Ok (best, r')) /\
  (1 <= NUM_GENERATIONS cfg ->
   MELODY_LENGTH cfg < 2 \/ POPULATION_SIZE cfg < 1 ->
   exists population r1 e,
     initial_population cfg r = Ok (population, r1) /\
     generation cfg population 0 r1 = Raise e /\
     genetic_algorithm cfg r = Raise e /\
     (e = IndexError \/ e = ValueError \/
      (e = OverflowError /\ breeding_pool_size cfg = Raise OverflowError)) /\
     (POPULATION_SIZE cfg < 1 \/ MELODY_LENGTH cfg < 1 -> e = IndexError) /\
     (MELODY_LENGTH cfg = 1 -> NUM_STRINGS cfg <= len (TUNING cfg) ->
      1 <= POPULATION_SIZE cfg ->
      (breeding_pool_size cfg = Ok 0 -> e = IndexError) /\
      (forall k, breeding_pool_size cfg = Ok k -> 1 <= k ->
                 e = ValueError))).
Proof.
  intros Hs Hf. split; [|split].
  - destruct (initial_population_total cfg Hs Hf r) as (pop & r1 & H & _).
    eauto.
  - intros Hrun. now apply genetic_algorithm_total.
  - intros HG Hbad.
    destruct (genetic_algorithm_malformed cfg Hs Hf r HG Hbad)
      as (pop & r1 & e & H1 & H2 & H3 & H4).
    exists pop, r1, e. split; [assumption|]. split; [assumption|].
    split; assumption.
Qed.

Lemma no_configuration_check_witness :
  ((exists population r1,
       initial_population no_scale zeros = Ok (population, r1)) /\
   (exists best r', genetic_algorithm no_scale zeros = Ok (best, r'))) /\
  (exists population r1,
      initial_population one_note zeros = Ok (population, r1) /\
      generation one_note population 0 r1 = Raise ValueError /\
      genetic_algorithm one_note zeros = Raise ValueError).
Proof.
  split.
  - destruct (no_configuration_check no_scale zeros) as (H1 & H2 & _).
    + cbn. lia.
    + cbn. lia.
    + split; [exact H1|]. apply H2. solve_runnable.
  - destruct (no_configuration_check one_note zeros) as (_ & _ & H3).
    + cbn. lia.
    + cbn. lia.
    + destruct H3 as (pop & r1 & e & Hinit & Hgen & Hga & _ & _ & Hone).
      * cbn. lia.
      * left. cbn. lia.
      * destruct Hone as [_ Hval]; try (unfold len; cbn; lia).
        assert (e = ValueError) as ->.
        { apply (Hval 30); [vm_compute; reflexivity|lia]. }
        exists pop, r1. split; [assumption|]. split; assumption.
Defined.

(** C9 as stated fails: with an empty pitch-class set the run reports no
    error and returns a candidate. *)
Lemma empty_scale_not_rejected :
  SCALE_C_MAJOR no_scale = [] /\
  exists best r', genetic_algorithm no_scale zeros = Ok (best, r').
Proof.
  split; [reflexivity|]. apply genetic_algorithm_total. solve_runnable.
Qed.
